(** * Annotate Studio: stroke store, hit testing and page prefetch

    A shallow embedding of the canvas store ([useCanvasStore]), of the
    viewer's geometry helpers ([getStrokeBounds], [findStrokeAtPoint],
    [findStrokesInRect]) and of the viewer's page prefetch effect, with
    the properties the specification states about them.

    JavaScript numbers that carry coordinates and sizes are IEEE binary64
    values ([float]); page numbers and clock readings are numbers that
    hold integers and are kept in [Z], with the rounding of binary64
    written out where the sources add to or subtract from them
    ([Js.addNum], [Js.subNum]).  Strings are kept in UTF-8 ([string]). *)

From Stdlib Require Import ZArith Ascii PrimFloat SpecFloat FloatOps.
From Stdlib Require Uint63.
From stdpp Require Import prelude strings pretty gmap.

Set Warnings "-inexact-float".

(** ** JavaScript primitives used by the sources *)

Module Js.

(** [Math.max] and [Math.min] on two arguments: NaN is contagious and
    [+0] is larger than [-0]. *)
Definition Math_max (a b : float) : float :=
  if (is_nan a || is_nan b)%bool then nan
  else if (a <? b)%float then b
  else if (b <? a)%float then a
  else match classify a with
       | FloatClass.NZero => b
       | _ => a
       end.

Definition Math_min (a b : float) : float :=
  if (is_nan a || is_nan b)%bool then nan
  else if (a <? b)%float then a
  else if (b <? a)%float then b
  else match classify a with
       | FloatClass.PZero => b
       | _ => a
       end.

(** [v ** 2], taken as the correctly rounded square. *)
Definition sq (v : float) : float := (v * v)%float.

(** [a >= b] on numbers. *)
Definition geb (a b : float) : bool := (b <=? a)%float.

(** An array or string length, as a number. *)
Definition ofLength (n : nat) : float := of_uint63 (Uint63.of_Z (Z.of_nat n)).

(** [s.startsWith(p)] *)
Definition startsWith (s p : string) : bool := String.prefix p s.

(** [s.replace(p, "")] for a string that starts with [p]: the first
    occurrence is the prefix itself. *)
Definition dropPrefix (p s : string) : string :=
  String.substring (String.length p) (String.length s - String.length p) s.

(** Number of UTF-16 code units of a UTF-8 encoded text ([s.length]):
    continuation bytes count for nothing, the lead byte of a four-byte
    sequence for a surrogate pair. *)
Definition utf16Units (c : Ascii.ascii) : nat :=
  let n := Ascii.N_of_ascii c in
  if (n <? 128)%N then 1
  else if (n <? 192)%N then 0
  else if (n <? 240)%N then 1
  else 2.

Fixpoint utf16Length (s : string) : nat :=
  match s with
  | EmptyString => 0
  | String c s' => utf16Units c + utf16Length s'
  end.

(** [/[^\x00-\x7F]/.test(s)] *)
Fixpoint hasNonAscii (s : string) : bool :=
  match s with
  | EmptyString => false
  | String c s' => (128 <=? Ascii.N_of_ascii c)%N || hasNonAscii s'
  end.

(** Truthiness of a string: only the empty string is falsy. *)
Definition truthy (s : string) : bool := negb (String.eqb s "").

(** Numbers that hold integers.  [roundNum z] is the binary64 value
    nearest to the integer [z], ties going to the even significand:
    integers up to 2^53 in magnitude are binary64 values themselves,
    larger ones keep their 53 leading bits.  (Magnitudes of 2^1024 and
    more, which binary64 does not hold, are not meant.) *)
Definition roundNum (z : Z) : Z :=
  let a := Z.abs z in
  if bool_decide (a ≤ 2 ^ 53)%Z then z
  else
    let e := (Z.log2 a - 52)%Z in
    let q := (a / 2 ^ e)%Z in
    let r := (a mod 2 ^ e)%Z in
    let half := (2 ^ (e - 1))%Z in
    let q' := if bool_decide (r < half)%Z then q
              else if bool_decide (half < r)%Z then (q + 1)%Z
              else if Z.even q then q else (q + 1)%Z in
    (Z.sgn z * (q' * 2 ^ e))%Z.

(** [a + b] and [a - b] on numbers that hold integers. *)
Definition addNum (a b : Z) : Z := roundNum (a + b).
Definition subNum (a b : Z) : Z := roundNum (a - b).

(** The integer is a binary64 value. *)
Definition isNum (z : Z) : Prop := roundNum z = z.

(** [Number.isSafeInteger]: below 2^53 in magnitude. *)
Definition isSafeInteger (z : Z) : Prop := (Z.abs z < 2 ^ 53)%Z.

(** The binary64 value of a non-negative integer below 2^63, and the
    integer a finite binary64 value of magnitude 2^52 or more holds;
    they serve to compare [roundNum] with the primitive operations. *)
Definition toFloat (z : Z) : float := of_uint63 (Uint63.of_Z z).

Definition ofFloat (f : float) : option Z :=
  match Prim2SF f with
  | S754_finite false m e => Some (Z.pos m * 2 ^ e)%Z
  | _ => None
  end.

End Js.

(** ** Data model of the canvas store *)

Module Point.
Record t : Type := mk { x : float; y : float }.
End Point.

Module Stroke.
Record t : Type := mk {
  id : string;
  points : list Point.t;
  color : string;
  thickness : float;
  opacity : float;
  tool : string;
  pageId : Z;
  timestamp : Z;
  fillColor : option string;
  backgroundColor : option string
}.
End Stroke.

(** [Omit<Stroke, "id" | "timestamp">], the argument of [addStroke]. *)
Module StrokeData.
Record t : Type := mk {
  points : list Point.t;
  color : string;
  thickness : float;
  opacity : float;
  tool : string;
  pageId : Z;
  fillColor : option string;
  backgroundColor : option string
}.
End StrokeData.

(** [Partial<Pick<Stroke, "points" | "thickness" | "color" | "fillColor" |
    "backgroundColor">>], the argument of [updateStroke].  [None] is a key
    that is absent; the two optional fields can also be present and
    undefined ([Some None]). *)
Module Updates.
Record t : Type := mk {
  points : option (list Point.t);
  thickness : option float;
  color : option string;
  fillColor : option (option string);
  backgroundColor : option (option string)
}.
End Updates.

(** What one evaluation of
    [`stroke-${Date.now()}-${Math.random().toString(36).substr(2, 9)}`]
    followed by [Date.now()] reads from the environment. *)
Module Entropy.
Record t : Type := mk {
  idNow : Z;
  rand36 : string;
  tsNow : Z
}.
End Entropy.

Definition freshId (e : Entropy.t) : string :=
  "stroke-" +:+ pretty (Entropy.idNow e) +:+ "-" +:+ Entropy.rand36 e.

(** Two evaluations of the id expression read the same clock value and
    draw the same random suffix. *)
Definition sameReading (e1 e2 : Entropy.t) : Prop :=
  Entropy.idNow e1 = Entropy.idNow e2 ∧ Entropy.rand36 e1 = Entropy.rand36 e2.

(** The text holds no hyphen. *)
Fixpoint noDash (s : string) : Prop :=
  match s with
  | EmptyString => True
  | String c s' => c ≠ "-"%char ∧ noDash s'
  end.

Record CanvasStore : Type := mkStore {
  strokes : list Stroke.t;
  undoStack : list (list Stroke.t);
  redoStack : list (list Stroke.t);
  currentPageId : Z;
  selectedStrokeId : option string;
  selectedStrokeIds : list string;
  clipboard : list Stroke.t
}.

Definition initialStore : CanvasStore :=
  {| strokes := []; undoStack := []; redoStack := []; currentPageId := 1;
     selectedStrokeId := None; selectedStrokeIds := []; clipboard := [] |}.

(** The object handed to zustand's [set]: the keys it lists replace the
    state's, the others are kept. *)
Record Patch : Type := mkPatch {
  p_strokes : option (list Stroke.t);
  p_undoStack : option (list (list Stroke.t));
  p_redoStack : option (list (list Stroke.t));
  p_currentPageId : option Z;
  p_selectedStrokeId : option (option string);
  p_selectedStrokeIds : option (list string);
  p_clipboard : option (list Stroke.t)
}.

Definition set (p : Patch) (s : CanvasStore) : CanvasStore :=
  {| strokes := default (strokes s) (p_strokes p);
     undoStack := default (undoStack s) (p_undoStack p);
     redoStack := default (redoStack s) (p_redoStack p);
     currentPageId := default (currentPageId s) (p_currentPageId p);
     selectedStrokeId := default (selectedStrokeId s) (p_selectedStrokeId p);
     selectedStrokeIds := default (selectedStrokeIds s) (p_selectedStrokeIds p);
     clipboard := default (clipboard s) (p_clipboard p) |}.

(** ** Store operations *)

Definition addStroke (strokeData : StrokeData.t) (e : Entropy.t)
    (state : CanvasStore) : CanvasStore :=
  let newStroke :=
    {| Stroke.id := freshId e;
       Stroke.points := StrokeData.points strokeData;
       Stroke.color := StrokeData.color strokeData;
       Stroke.thickness := StrokeData.thickness strokeData;
       Stroke.opacity := StrokeData.opacity strokeData;
       Stroke.tool := StrokeData.tool strokeData;
       Stroke.pageId := StrokeData.pageId strokeData;
       Stroke.timestamp := Entropy.tsNow e;
       Stroke.fillColor := StrokeData.fillColor strokeData;
       Stroke.backgroundColor := StrokeData.backgroundColor strokeData |} in
  set {| p_strokes := Some (strokes state ++ [newStroke]);
         p_undoStack := Some (undoStack state ++ [strokes state]);
         p_redoStack := Some [];
         p_currentPageId := None; p_selectedStrokeId := None;
         p_selectedStrokeIds := None; p_clipboard := None |} state.

(** [{ ...s, ...updates }] *)
Definition merge (s : Stroke.t) (updates : Updates.t) : Stroke.t :=
  {| Stroke.id := Stroke.id s;
     Stroke.points := default (Stroke.points s) (Updates.points updates);
     Stroke.color := default (Stroke.color s) (Updates.color updates);
     Stroke.thickness := default (Stroke.thickness s) (Updates.thickness updates);
     Stroke.opacity := Stroke.opacity s;
     Stroke.tool := Stroke.tool s;
     Stroke.pageId := Stroke.pageId s;
     Stroke.timestamp := Stroke.timestamp s;
     Stroke.fillColor := default (Stroke.fillColor s) (Updates.fillColor updates);
     Stroke.backgroundColor :=
       default (Stroke.backgroundColor s) (Updates.backgroundColor updates) |}.

Definition updateStroke (i : string) (updates : Updates.t)
    (state : CanvasStore) : CanvasStore :=
  set {| p_strokes :=
           Some (map (λ s, if bool_decide (Stroke.id s = i)
                           then merge s updates else s) (strokes state));
         p_undoStack := Some (undoStack state ++ [strokes state]);
         p_redoStack := Some [];
         p_currentPageId := None; p_selectedStrokeId := None;
         p_selectedStrokeIds := None; p_clipboard := None |} state.

Definition deleteStroke (i : string) (state : CanvasStore) : CanvasStore :=
  set {| p_strokes := Some (filter (λ s, Stroke.id s ≠ i) (strokes state));
         p_undoStack := Some (undoStack state ++ [strokes state]);
         p_redoStack := Some [];
         p_currentPageId := None;
         p_selectedStrokeId :=
           Some (if bool_decide (selectedStrokeId state = Some i)
                 then None else selectedStrokeId state);
         p_selectedStrokeIds :=
           Some (filter (λ sid, sid ≠ i) (selectedStrokeIds state));
         p_clipboard := None |} state.

Definition deleteSelectedStrokes (state : CanvasStore) : CanvasStore :=
  if bool_decide (length (selectedStrokeIds state) = 0) then state
  else
    set {| p_strokes :=
             Some (filter (λ s, Stroke.id s ∉ selectedStrokeIds state)
                          (strokes state));
           p_undoStack := Some (undoStack state ++ [strokes state]);
           p_redoStack := Some [];
           p_currentPageId := None;
           p_selectedStrokeId := Some None;
           p_selectedStrokeIds := Some [];
           p_clipboard := None |} state.

Definition selectStroke (i : option string) (state : CanvasStore) : CanvasStore :=
  set {| p_strokes := None; p_undoStack := None; p_redoStack := None;
         p_currentPageId := None;
         p_selectedStrokeId := Some i;
         p_selectedStrokeIds :=
           Some (match i with
                 | Some i' => if Js.truthy i' then [i'] else []
                 | None => []
                 end);
         p_clipboard := None |} state.

Definition selectStrokes (ids : list string) (state : CanvasStore) : CanvasStore :=
  set {| p_strokes := None; p_undoStack := None; p_redoStack := None;
         p_currentPageId := None;
         p_selectedStrokeId :=
           Some (if bool_decide (0 < length ids) then ids !! 0 else None);
         p_selectedStrokeIds := Some ids;
         p_clipboard := None |} state.

Definition addToSelection (i : string) (state : CanvasStore) : CanvasStore :=
  if bool_decide (i ∈ selectedStrokeIds state) then state
  else
    set {| p_strokes := None; p_undoStack := None; p_redoStack := None;
           p_currentPageId := None;
           p_selectedStrokeId := Some (Some i);
           p_selectedStrokeIds := Some (selectedStrokeIds state ++ [i]);
           p_clipboard := None |} state.

Definition removeFromSelection (i : string) (state : CanvasStore) : CanvasStore :=
  let newIds := filter (λ sid, sid ≠ i) (selectedStrokeIds state) in
  set {| p_strokes := None; p_undoStack := None; p_redoStack := None;
         p_currentPageId := None;
         p_selectedStrokeId :=
           Some (if bool_decide (0 < length newIds) then newIds !! 0 else None);
         p_selectedStrokeIds := Some newIds;
         p_clipboard := None |} state.

Definition clearSelection (state : CanvasStore) : CanvasStore :=
  set {| p_strokes := None; p_undoStack := None; p_redoStack := None;
         p_currentPageId := None;
         p_selectedStrokeId := Some None;
         p_selectedStrokeIds := Some [];
         p_clipboard := None |} state.

(** [strokes.find((s) => s.id === id)] *)
Definition getStrokeById (i : string) (state : CanvasStore) : option Stroke.t :=
  head (filter (λ s, Stroke.id s = i) (strokes state)).

(** [undo] and [redo] return the flag and the next state.  The guard
    [stack.length === 0] is the case where the stack has no last entry;
    [stack.slice(0, -1)] drops that entry. *)
Definition undo (state : CanvasStore) : bool * CanvasStore :=
  match last (undoStack state) with
  | None => (false, state)
  | Some previousState =>
      (true,
       set {| p_strokes := Some previousState;
              p_undoStack :=
                Some (take (length (undoStack state) - 1) (undoStack state));
              p_redoStack := Some (redoStack state ++ [strokes state]);
              p_currentPageId := None; p_selectedStrokeId := None;
              p_selectedStrokeIds := None; p_clipboard := None |} state)
  end.

Definition redo (state : CanvasStore) : bool * CanvasStore :=
  match last (redoStack state) with
  | None => (false, state)
  | Some nextState =>
      (true,
       set {| p_strokes := Some nextState;
              p_undoStack := Some (undoStack state ++ [strokes state]);
              p_redoStack :=
                Some (take (length (redoStack state) - 1) (redoStack state));
              p_currentPageId := None; p_selectedStrokeId := None;
              p_selectedStrokeIds := None; p_clipboard := None |} state)
  end.

Definition canUndo (state : CanvasStore) : bool :=
  bool_decide (0 < length (undoStack state)).

Definition canRedo (state : CanvasStore) : bool :=
  bool_decide (0 < length (redoStack state)).

Definition getPageStrokes (page : Z) (state : CanvasStore) : list Stroke.t :=
  filter (λ s, Stroke.pageId s = page) (strokes state).

Definition clearPage (page : Z) (state : CanvasStore) : CanvasStore :=
  set {| p_strokes := Some (filter (λ s, Stroke.pageId s ≠ page) (strokes state));
         p_undoStack := Some (undoStack state ++ [strokes state]);
         p_redoStack := Some [];
         p_currentPageId := None; p_selectedStrokeId := None;
         p_selectedStrokeIds := None; p_clipboard := None |} state.

Definition setCurrentPage (page : Z) (state : CanvasStore) : CanvasStore :=
  set {| p_strokes := None; p_undoStack := None; p_redoStack := None;
         p_currentPageId := Some page; p_selectedStrokeId := None;
         p_selectedStrokeIds := None; p_clipboard := None |} state.

Definition selectedOf (state : CanvasStore) : list Stroke.t :=
  filter (λ s, Stroke.id s ∈ selectedStrokeIds state) (strokes state).

Definition copySelected (state : CanvasStore) : CanvasStore :=
  if bool_decide (length (selectedStrokeIds state) = 0) then state
  else
    set {| p_strokes := None; p_undoStack := None; p_redoStack := None;
           p_currentPageId := None; p_selectedStrokeId := None;
           p_selectedStrokeIds := None;
           p_clipboard := Some (selectedOf state) |} state.

Definition cutSelected (state : CanvasStore) : CanvasStore :=
  if bool_decide (length (selectedStrokeIds state) = 0) then state
  else
    set {| p_strokes :=
             Some (filter (λ s, Stroke.id s ∉ selectedStrokeIds state)
                          (strokes state));
           p_undoStack := Some (undoStack state ++ [strokes state]);
           p_redoStack := Some [];
           p_currentPageId := None;
           p_selectedStrokeId := Some None;
           p_selectedStrokeIds := Some [];
           p_clipboard := Some (selectedOf state) |} state.

Definition translate (offset p : Point.t) : Point.t :=
  {| Point.x := (Point.x p + Point.x offset)%float;
     Point.y := (Point.y p + Point.y offset)%float |}.

(** The object built for one stroke by the [map] callbacks of [paste] and
    [duplicateSelected]:
    [{ ...s, id: ..., timestamp: Date.now(), pageId, points: ... }]. *)
Definition copyTo (page : Z) (offset : Point.t) (e : Entropy.t)
    (s : Stroke.t) : Stroke.t :=
  {| Stroke.id := freshId e;
     Stroke.points := map (translate offset) (Stroke.points s);
     Stroke.color := Stroke.color s;
     Stroke.thickness := Stroke.thickness s;
     Stroke.opacity := Stroke.opacity s;
     Stroke.tool := Stroke.tool s;
     Stroke.pageId := page;
     Stroke.timestamp := Entropy.tsNow e;
     Stroke.fillColor := Stroke.fillColor s;
     Stroke.backgroundColor := Stroke.backgroundColor s |}.

(** [newStrokes[0]?.id || null] *)
Definition firstIdOrNull (newStrokes : list Stroke.t) : option string :=
  match newStrokes !! 0 with
  | Some s => if Js.truthy (Stroke.id s) then Some (Stroke.id s) else None
  | None => None
  end.

Definition defaultOffset : Point.t := {| Point.x := 20; Point.y := 20 |}.

(** [gen k] is what the callback's [k]-th invocation reads from the clock
    and the random source. *)
Definition paste (page : Z) (offset : option Point.t) (gen : nat → Entropy.t)
    (state : CanvasStore) : CanvasStore :=
  if bool_decide (length (clipboard state) = 0) then state
  else
    let newStrokes :=
      imap (λ k s, copyTo page (default defaultOffset offset) (gen k) s)
           (clipboard state) in
    set {| p_strokes := Some (strokes state ++ newStrokes);
           p_undoStack := Some (undoStack state ++ [strokes state]);
           p_redoStack := Some [];
           p_currentPageId := None;
           p_selectedStrokeId := Some (firstIdOrNull newStrokes);
           p_selectedStrokeIds := Some (map Stroke.id newStrokes);
           p_clipboard := None |} state.

Definition duplicateSelected (page : Z) (gen : nat → Entropy.t)
    (state : CanvasStore) : CanvasStore :=
  if bool_decide (length (selectedStrokeIds state) = 0) then state
  else
    let newStrokes :=
      imap (λ k s, copyTo page defaultOffset (gen k) s) (selectedOf state) in
    set {| p_strokes := Some (strokes state ++ newStrokes);
           p_undoStack := Some (undoStack state ++ [strokes state]);
           p_redoStack := Some [];
           p_currentPageId := None;
           p_selectedStrokeId := Some (firstIdOrNull newStrokes);
           p_selectedStrokeIds := Some (map Stroke.id newStrokes);
           p_clipboard := None |} state.

(** ** Sequences of history-recording operations *)

Inductive Op : Type :=
| AddStroke (strokeData : StrokeData.t) (e : Entropy.t)
| UpdateStroke (i : string) (updates : Updates.t)
| DeleteStroke (i : string)
| DeleteSelectedStrokes
| ClearPage (page : Z)
| CutSelected
| Paste (page : Z) (offset : option Point.t) (gen : nat → Entropy.t)
| DuplicateSelected (page : Z) (gen : nat → Entropy.t).

Definition apply (o : Op) (state : CanvasStore) : CanvasStore :=
  match o with
  | AddStroke d e => addStroke d e state
  | UpdateStroke i u => updateStroke i u state
  | DeleteStroke i => deleteStroke i state
  | DeleteSelectedStrokes => deleteSelectedStrokes state
  | ClearPage page => clearPage page state
  | CutSelected => cutSelected state
  | Paste page offset gen => paste page offset gen state
  | DuplicateSelected page gen => duplicateSelected page gen state
  end.

(** Whether the call gets past its guard in [state]: the four operations
    that start with [if (... .length === 0) return] do nothing otherwise. *)
Definition records (o : Op) (state : CanvasStore) : bool :=
  match o with
  | DeleteSelectedStrokes | CutSelected | DuplicateSelected _ _ =>
      bool_decide (selectedStrokeIds state ≠ [])
  | Paste _ _ _ => bool_decide (clipboard state ≠ [])
  | _ => true
  end.

Fixpoint run (ops : list Op) (state : CanvasStore) : CanvasStore :=
  match ops with
  | [] => state
  | o :: ops' => run ops' (apply o state)
  end.

(** Whether at least one call of the sequence got past its guard. *)
Fixpoint recorded (ops : list Op) (state : CanvasStore) : bool :=
  match ops with
  | [] => false
  | o :: ops' => records o state || recorded ops' (apply o state)
  end.

Definition undoTimes (n : nat) (state : CanvasStore) : CanvasStore :=
  Nat.iter n (λ s, (undo s).2) state.

Definition redoTimes (n : nat) (state : CanvasStore) : CanvasStore :=
  Nat.iter n (λ s, (redo s).2) state.

(** The history effect of an edit: the strokes as they were are pushed on
    the undo stack and the redo stack is emptied. *)
Definition pushes (before after : CanvasStore) : Prop :=
  undoStack after = undoStack before ++ [strokes before] ∧ redoStack after = [].

(** The primary selection is the first selected id, or [null] when
    nothing is selected. *)
Definition primaryIsFirst (s : CanvasStore) : Prop :=
  selectedStrokeId s = head (selectedStrokeIds s).

(** ** Geometry helpers of the viewer component *)

Module Bounds.
Record t : Type := mk { minX : float; minY : float; maxX : float; maxY : float }.
End Bounds.

(** What the viewer component closes over when its geometry callbacks run:
    its props, the engine flag, the engine's hit test and the store. *)
Record Viewer : Type := mkViewer {
  currentPage : Z;
  scale : float;
  wasmReady : bool;
  engineHitTest : float → float → float → Z;
  canvas : CanvasStore
}.

(** [getStrokeBounds]: [None] is [null]; the argument is [None] when the
    caller passes [undefined]. *)
Definition getStrokeBounds (stroke : option Stroke.t) : option Bounds.t :=
  match stroke with
  | None => None
  | Some stroke =>
      match Stroke.points stroke with
      | [] => None
      | p0 :: rest =>
          match Js.startsWith (Stroke.tool stroke) "shape-", rest with
          | true, p1 :: _ =>
              Some {| Bounds.minX := Js.Math_min (Point.x p0) (Point.x p1);
                      Bounds.minY := Js.Math_min (Point.y p0) (Point.y p1);
                      Bounds.maxX := Js.Math_max (Point.x p0) (Point.x p1);
                      Bounds.maxY := Js.Math_max (Point.y p0) (Point.y p1) |}
          | _, _ =>
              if Js.startsWith (Stroke.tool stroke) "text:" then
                let text := Js.dropPrefix "text:" (Stroke.tool stroke) in
                let fontSize := Js.Math_max 14 (Stroke.thickness stroke * 4) in
                let isMathSymbol :=
                  bool_decide (Js.utf16Length text = 1%nat) && Js.hasNonAscii text in
                let charWidth :=
                  if isMathSymbol then fontSize * 0.7 else fontSize * 0.55 in
                let textWidth :=
                  Js.Math_max (fontSize * 0.6)
                              (Js.ofLength (Js.utf16Length text) * charWidth) in
                Some {| Bounds.minX := Point.x p0 - 1;
                        Bounds.minY := Point.y p0 - fontSize * 0.85;
                        Bounds.maxX := Point.x p0 + textWidth - 1;
                        Bounds.maxY := Point.y p0 + fontSize * 0.15 |}
              else None
          end
      end
  end%float.

(** [stroke.tool === "pen" || stroke.tool === "highlighter"] *)
Definition isFreehand (stroke : Stroke.t) : bool :=
  bool_decide (Stroke.tool stroke = "pen")
  || bool_decide (Stroke.tool stroke = "highlighter").

(** [Math.sqrt((point.x - p.x) ** 2 + (point.y - p.y) ** 2)] *)
Definition distance (point p : Point.t) : float :=
  PrimFloat.sqrt (Js.sq (Point.x point - Point.x p) + Js.sq (Point.y point - Point.y p))%float.

(** The body of the scan loop of [findStrokeAtPoint]: whether the stroke
    makes the loop return. *)
Definition hitsStroke (point : Point.t) (eraserRadius : float)
    (stroke : Stroke.t) : bool :=
  if isFreehand stroke then
    existsb (λ p, distance point p <=? eraserRadius + Stroke.thickness stroke / 2)%float
            (Stroke.points stroke)
  else
    match getStrokeBounds (Some stroke) with
    | Some bounds =>
        let padding := eraserRadius in
        Js.geb (Point.x point) (Bounds.minX bounds - padding)
        && (Point.x point <=? Bounds.maxX bounds + padding)
        && Js.geb (Point.y point) (Bounds.minY bounds - padding)
        && (Point.y point <=? Bounds.maxY bounds + padding)
    | None => false
    end%float.

(** [for (let i = pageStrokes.length - 1; i >= 0; i--)], with [n] the
    number of indices still to visit ([i = n - 1]).  The loop starts at
    the length of the list, so [pageStrokes[i]] is always defined. *)
Fixpoint scanDown (point : Point.t) (eraserRadius : float)
    (pageStrokes : list Stroke.t) (n : nat) : option string :=
  match n with
  | 0 => None
  | S i =>
      match pageStrokes !! i with
      | Some stroke =>
          if hitsStroke point eraserRadius stroke then Some (Stroke.id stroke)
          else scanDown point eraserRadius pageStrokes i
      | None => scanDown point eraserRadius pageStrokes i
      end
  end.

Definition findStrokeAtPoint (v : Viewer) (point : Point.t) (eraserMode : bool)
    : option string :=
  let pageStrokes := getPageStrokes (currentPage v) (canvas v) in
  let eraserRadius := (if eraserMode then 15 else 10)%float in
  if wasmReady v then
    let idx := engineHitTest v (Point.x point * scale v)%float
                 (Point.y point * scale v)%float eraserRadius in
    if bool_decide (0 ≤ idx)%Z && bool_decide (idx < Z.of_nat (length pageStrokes))%Z
    then Stroke.id <$> pageStrokes !! Z.to_nat idx
    else None
  else scanDown point eraserRadius pageStrokes (length pageStrokes).

(** The rubber-band rectangle after [Math.min]/[Math.max] of its corners. *)
Definition rectOf (start stop : Point.t) : Bounds.t :=
  {| Bounds.minX := Js.Math_min (Point.x start) (Point.x stop);
     Bounds.minY := Js.Math_min (Point.y start) (Point.y stop);
     Bounds.maxX := Js.Math_max (Point.x start) (Point.x stop);
     Bounds.maxY := Js.Math_max (Point.y start) (Point.y stop) |}.

(** [x >= rectMinX && x <= rectMaxX && y >= rectMinY && y <= rectMaxY] *)
Definition inRect (rect : Bounds.t) (px py : float) : bool :=
  Js.geb px (Bounds.minX rect) && (px <=? Bounds.maxX rect)%float
  && Js.geb py (Bounds.minY rect) && (py <=? Bounds.maxY rect)%float.

Definition centerInRect (rect bounds : Bounds.t) : bool :=
  let strokeCenterX := ((Bounds.minX bounds + Bounds.maxX bounds) / 2)%float in
  let strokeCenterY := ((Bounds.minY bounds + Bounds.maxY bounds) / 2)%float in
  inRect rect strokeCenterX strokeCenterY.

Definition overlapsRect (rect bounds : Bounds.t) : bool :=
  let overlapX := (Bounds.minX bounds <=? Bounds.maxX rect)%float
                  && Js.geb (Bounds.maxX bounds) (Bounds.minX rect) in
  let overlapY := (Bounds.minY bounds <=? Bounds.maxY rect)%float
                  && Js.geb (Bounds.maxY bounds) (Bounds.minY rect) in
  overlapX && overlapY.

(** The value of [isInside] at the end of one iteration of the loop of
    [findStrokesInRect]. *)
Definition isInside (rect : Bounds.t) (stroke : Stroke.t) : bool :=
  if isFreehand stroke then
    existsb (λ p, inRect rect (Point.x p) (Point.y p)) (Stroke.points stroke)
  else
    match getStrokeBounds (Some stroke) with
    | Some bounds =>
        let inside := centerInRect rect bounds in
        if negb inside then overlapsRect rect bounds else inside
    | None => false
    end.

(** [for (const stroke of pageStrokes) { ...; if (isInside) result.push(stroke.id) }] *)
Fixpoint collectInRect (rect : Bounds.t) (pageStrokes : list Stroke.t)
    (result : list string) : list string :=
  match pageStrokes with
  | [] => result
  | stroke :: rest =>
      collectInRect rect rest
        (if isInside rect stroke then result ++ [Stroke.id stroke] else result)
  end.

Definition findStrokesInRect (v : Viewer) (start stop : Point.t) : list string :=
  collectInRect (rectOf start stop)
                (getPageStrokes (currentPage v) (canvas v)) [].

(** ** Hit testing and rubber-band selection as the specification words them

    The definitions of this module follow the text of the specification
    (its stroke kinds, [hitTest] and [rectSelect]) and use none of the
    viewer's helpers above, one case apart: the specification gives no
    measure for text, so the box of a text is the viewer's. *)

Module Spec.



(** Point distance. *)
Definition distance (a b : Point.t) : float :=
  let dx := (Point.x a - Point.x b)%float in
  let dy := (Point.y a - Point.y b)%float in
  PrimFloat.sqrt (dx * dx + dy * dy).















End Spec.

(** ** Page prefetch effect of the viewer *)

Module Prefetch.

Record PdfPageMeta : Type := mkMeta {
  pageNumber : Z;
  width : float;
  height : float
}.

(** The values the effect depends on: [pdfPath], [pagesMeta] and
    [renderedPages] of the PDF store and the [currentPage] prop. *)
Record Deps : Type := mkDeps {
  pdfPath : option string;
  pagesMeta : list PdfPageMeta;
  renderedPages : gmap Z string;
  currentPage : Z
}.

(** [pagesMeta.find((p) => p.pageNumber === currentPage)] *)
Definition currentPageMeta (d : Deps) : option PdfPageMeta :=
  head (filter (λ p, pageNumber p = currentPage d) (pagesMeta d)).

(** [renderedPages.has(pageNum)] *)
Definition has (d : Deps) (pageNum : Z) : bool :=
  bool_decide (is_Some (renderedPages d !! pageNum)).

(** The guard [if (!pdfPath || !currentPageMeta) return], negated. *)
Definition runs (d : Deps) : bool :=
  match pdfPath d with
  | Some path => Js.truthy path
  | None => false
  end
  && bool_decide (is_Some (currentPageMeta d)).

(** The two refs the effect shares across its runs. *)
Record Refs : Type := mkRefs {
  pdfLoadingRef : bool;
  pdfQueueRef : list Z
}.

(** The effect from [pdfQueueRef.current = []] up to, and without, the
    call of [processQueue].  [currentPage - 1] and [currentPage + 1] are
    binary64 operations. *)
Definition rebuild (d : Deps) (r : Refs) : Refs :=
  let q0 : list Z := [] in
  let q1 := if negb (has d (currentPage d)) then q0 ++ [currentPage d] else q0 in
  let total := Z.of_nat (length (pagesMeta d)) in
  let q2 :=
    if bool_decide (1 < currentPage d)%Z
       && negb (has d (Js.subNum (currentPage d) 1))
    then q1 ++ [Js.subNum (currentPage d) 1] else q1 in
  let q3 :=
    if bool_decide (currentPage d < total)%Z
       && negb (has d (Js.addNum (currentPage d) 1))
    then q2 ++ [Js.addNum (currentPage d) 1] else q2 in
  {| pdfLoadingRef := pdfLoadingRef r; pdfQueueRef := q3 |}.

(** [processQueue] up to its [await]: the page it starts loading, if any.
    [cancelled] is the flag of the effect run that owns the closure. *)
Definition processQueue (cancelled : bool) (r : Refs) : Refs * option Z :=
  if pdfLoadingRef r || bool_decide (length (pdfQueueRef r) = 0) || cancelled
  then (r, None)
  else
    match pdfQueueRef r with
    | pageNum :: rest => ({| pdfLoadingRef := true; pdfQueueRef := rest |}, Some pageNum)
    | [] => (r, None)
    end.

(** [processQueue] after [await loadPage(pageNum)]: the flag is released,
    and the result says whether [setTimeout(processQueue, 16)] is called. *)
Definition resume (cancelled : bool) (r : Refs) : Refs * bool :=
  ({| pdfLoadingRef := false; pdfQueueRef := pdfQueueRef r |},
   negb cancelled && bool_decide (0 < length (pdfQueueRef r))).

(** The whole synchronous part of one effect run, on a fresh closure
    ([cancelled = false]). *)
Definition effect (d : Deps) (r : Refs) : Refs * option Z :=
  if runs d then processQueue false (rebuild d r) else (r, None).

(** *** The scheduler around the effect

    Effect runs are numbered; a closure is cancelled as soon as a later
    run exists (React calls the cleanup of the previous run first), also
    when the later run stops at its guard.  [awaiting] lists the calls of
    [processQueue] suspended at [await loadPage(...)], each with the run
    that owns it and its page; [timers] the pending
    [setTimeout(processQueue, 16)] callbacks, by owning run. *)
Record Sched : Type := mkSched {
  refs : Refs;
  epoch : nat;
  awaiting : list (nat * Z);
  timers : list nat
}.

Definition initial : Sched :=
  {| refs := {| pdfLoadingRef := false; pdfQueueRef := [] |};
     epoch := 0; awaiting := []; timers := [] |}.

(** A call of [processQueue] by the closure of run [owner]. *)
Definition call (owner : nat) (s : Sched) (r : Refs) : Sched :=
  let '(r', started) := processQueue (bool_decide (owner ≠ epoch s)) r in
  {| refs := r'; epoch := epoch s;
     awaiting := match started with
                 | Some pageNum => awaiting s ++ [(owner, pageNum)]
                 | None => awaiting s
                 end;
     timers := timers s |}.

Inductive step : Sched → Sched → Prop :=
| step_navigate (d : Deps) (s : Sched) :
    (* the dependencies changed: cleanup of the previous run, then the effect *)
    let s' := {| refs := refs s; epoch := S (epoch s);
                 awaiting := awaiting s; timers := timers s |} in
    step s (if runs d then call (epoch s') s' (rebuild d (refs s')) else s')
| step_loaded (k owner : nat) (pageNum : Z) (s : Sched) :
    (* a suspended call resumes after its [await] *)
    awaiting s !! k = Some (owner, pageNum) →
    let '(r', again) := resume (bool_decide (owner ≠ epoch s)) (refs s) in
    step s {| refs := r'; epoch := epoch s;
              awaiting := delete k (awaiting s);
              timers := if again then timers s ++ [owner] else timers s |}
| step_timer (k owner : nat) (s : Sched) :
    (* a pending timer fires and calls [processQueue] *)
    timers s !! k = Some owner →
    step s (call owner
              {| refs := refs s; epoch := epoch s; awaiting := awaiting s;
                 timers := delete k (timers s) |}
              (refs s)).

Inductive reachable : Sched → Prop :=
| reachable_initial : reachable initial
| reachable_step s s' : reachable s → step s s' → reachable s'.

(** At most one call of [processQueue] is suspended at its [await], and
    [pdfLoadingRef] is set exactly while one is. *)
Definition oneAtATime (s : Sched) : Prop :=
  if pdfLoadingRef (refs s) then length (awaiting s) = 1 else awaiting s = [].

(** The request list the specification describes for page [n], in the
    integers. *)
Definition neighbours (total n : Z) : list Z :=
  [n] ++ (if bool_decide (1 < n)%Z then [(n - 1)%Z] else [])
      ++ (if bool_decide (n < total)%Z then [(n + 1)%Z] else []).

(** The pages the effect considers for page [n], as it computes them. *)
Definition considered (total n : Z) : list Z :=
  [n] ++ (if bool_decide (1 < n)%Z then [Js.subNum n 1] else [])
      ++ (if bool_decide (n < total)%Z then [Js.addNum n 1] else []).

End Prefetch.

(** ** Concrete stores used by the examples *)

Definition tick (n : Z) : Entropy.t :=
  {| Entropy.idNow := 1700000000000 + n;
     Entropy.rand36 := "k3j2h1g0f";
     Entropy.tsNow := 1700000000000 + n |}.

Definition penAt (px py : float) : StrokeData.t :=
  {| StrokeData.points := [ {| Point.x := px; Point.y := py |} ];
     StrokeData.color := "#000000";
     StrokeData.thickness := 2;
     StrokeData.opacity := 100;
     StrokeData.tool := "pen";
     StrokeData.pageId := 1;
     StrokeData.fillColor := None;
     StrokeData.backgroundColor := None |}.

(** One pen stroke with a single point at (10, 10). *)
Definition drawn : CanvasStore := addStroke (penAt 10 10) (tick 0) initialStore.

(** ... then undone: no strokes, one redo entry. *)
Definition undone : CanvasStore := (undo drawn).2.

(** ... or selected, *)
Definition picked : CanvasStore := selectStroke (Some (freshId (tick 0))) drawn.

(** ... then removed by an eraser pass, *)
Definition erased : CanvasStore := deleteStroke (freshId (tick 0)) picked.

(** ... or copied to the clipboard. *)
Definition copied : CanvasStore := copySelected picked.

Definition thicker : Updates.t :=
  {| Updates.points := None; Updates.thickness := Some 5%float;
     Updates.color := None; Updates.fillColor := None;
     Updates.backgroundColor := None |}.

(** The clock and random source of the example paste. *)
Definition laterTick (k : nat) : Entropy.t := tick (1 + Z.of_nat k).

(** Two ids selected one after the other, the second with shift held. *)
Definition twoSelected : CanvasStore :=
  addToSelection "stroke-2-b" (selectStroke (Some "stroke-1-a") initialStore).

(** A pen stroke through (10, 10) and, added after it, a circle whose
    box spans (0, 0) to (20, 20); a pen stroke with the single point
    (25, 25). *)
Definition strokeA : Stroke.t :=
  {| Stroke.id := "stroke-1-a";
     Stroke.points := [ {| Point.x := 10; Point.y := 10 |} ];
     Stroke.color := "#000000"; Stroke.thickness := 2; Stroke.opacity := 100;
     Stroke.tool := "pen"; Stroke.pageId := 1; Stroke.timestamp := 1;
     Stroke.fillColor := None; Stroke.backgroundColor := None |}.

Definition strokeB : Stroke.t :=
  {| Stroke.id := "stroke-2-b";
     Stroke.points := [ {| Point.x := 0; Point.y := 0 |};
                        {| Point.x := 20; Point.y := 20 |} ];
     Stroke.color := "#000000"; Stroke.thickness := 2; Stroke.opacity := 100;
     Stroke.tool := "shape-circle"; Stroke.pageId := 1; Stroke.timestamp := 2;
     Stroke.fillColor := None; Stroke.backgroundColor := None |}.


Definition viewerOf (l : list Stroke.t) : Viewer :=
  {| currentPage := 1; scale := 1; wasmReady := false;
     engineHitTest := λ _ _ _, (-1)%Z;
     canvas := {| strokes := l; undoStack := []; redoStack := [];
                  currentPageId := 1; selectedStrokeId := None;
                  selectedStrokeIds := []; clipboard := [] |} |}.

(** A document of three pages, open at page 2, page 3 already rendered. *)
Definition threePages : Prefetch.Deps :=
  {| Prefetch.pdfPath := Some "/tmp/notes.pdf";
     Prefetch.pagesMeta :=
       [ Prefetch.mkMeta 1 595 842; Prefetch.mkMeta 2 595 842;
         Prefetch.mkMeta 3 595 842 ];
     Prefetch.renderedPages := {[ 3%Z := "data:image/png;base64,AAAA" ]};
     Prefetch.currentPage := 2 |}.

(** The same document after the user moved on to page 3 while page 2 was
    still being rendered. *)
Definition movedOn : Prefetch.Deps :=
  {| Prefetch.pdfPath := Some "/tmp/notes.pdf";
     Prefetch.pagesMeta :=
       [ Prefetch.mkMeta 1 595 842; Prefetch.mkMeta 2 595 842;
         Prefetch.mkMeta 3 595 842 ];
     Prefetch.renderedPages := ∅;
     Prefetch.currentPage := 3 |}.

(** The same document after a blank fourth page was added and became
    the current page: page 4 has no metadata entry. *)
Definition blankPage : Prefetch.Deps :=
  {| Prefetch.pdfPath := Some "/tmp/notes.pdf";
     Prefetch.pagesMeta :=
       [ Prefetch.mkMeta 1 595 842; Prefetch.mkMeta 2 595 842;
         Prefetch.mkMeta 3 595 842 ];
     Prefetch.renderedPages := ∅;
     Prefetch.currentPage := 4 |}.

(** The rectangle with corners (0, 0) and (100, 50). *)
Definition strokeR : Stroke.t :=
  {| Stroke.id := "stroke-4-r";
     Stroke.points := [ {| Point.x := 0; Point.y := 0 |};
                        {| Point.x := 100; Point.y := 50 |} ];
     Stroke.color := "#3b82f6"; Stroke.thickness := 2; Stroke.opacity := 100;
     Stroke.tool := "shape-rectangle"; Stroke.pageId := 1; Stroke.timestamp := 4;
     Stroke.fillColor := None; Stroke.backgroundColor := None |}.

(** A pen stroke that lost all its points. *)
Definition strokeE : Stroke.t :=
  {| Stroke.id := "stroke-5-e";
     Stroke.points := [];
     Stroke.color := "#000000"; Stroke.thickness := 2; Stroke.opacity := 100;
     Stroke.tool := "pen"; Stroke.pageId := 1; Stroke.timestamp := 5;
     Stroke.fillColor := None; Stroke.backgroundColor := None |}.


(** ** Further parts of the viewer component *)

Inductive Corner : Type := tl | tr | bl | br.

(** [getResizeCorner]: the four tests are made in the order tl, tr, bl,
    br and the first that succeeds decides. *)
Definition getResizeCorner (point : Point.t) (stroke : option Stroke.t)
    : option Corner :=
  match getStrokeBounds stroke with
  | None => None
  | Some bounds =>
      let padding := 5 in
      let cornerSize := 14 in
      let boxMinX := Bounds.minX bounds - padding in
      let boxMinY := Bounds.minY bounds - padding in
      let boxMaxX := Bounds.maxX bounds + padding in
      let boxMaxY := Bounds.maxY bounds + padding in
      if Js.geb (Point.x point) (boxMinX - cornerSize / 2)
         && (Point.x point <=? boxMinX + cornerSize / 2)
         && Js.geb (Point.y point) (boxMinY - cornerSize / 2)
         && (Point.y point <=? boxMinY + cornerSize / 2) then Some tl
      else if Js.geb (Point.x point) (boxMaxX - cornerSize / 2)
         && (Point.x point <=? boxMaxX + cornerSize / 2)
         && Js.geb (Point.y point) (boxMinY - cornerSize / 2)
         && (Point.y point <=? boxMinY + cornerSize / 2) then Some tr
      else if Js.geb (Point.x point) (boxMinX - cornerSize / 2)
         && (Point.x point <=? boxMinX + cornerSize / 2)
         && Js.geb (Point.y point) (boxMaxY - cornerSize / 2)
         && (Point.y point <=? boxMaxY + cornerSize / 2) then Some bl
      else if Js.geb (Point.x point) (boxMaxX - cornerSize / 2)
         && (Point.x point <=? boxMaxX + cornerSize / 2)
         && Js.geb (Point.y point) (boxMaxY - cornerSize / 2)
         && (Point.y point <=? boxMaxY + cornerSize / 2) then Some br
      else None
  end%float.

(** The select-all branch of the viewer's key handler:
    [selectStrokes(getPageStrokes(currentPage).map(s => s.id))]. *)
Definition selectAll (page : Z) (state : CanvasStore) : CanvasStore :=
  selectStrokes (map Stroke.id (getPageStrokes page state)) state.

(** All ids of a stroke list are different. *)
Definition uniqueIds (l : list Stroke.t) : Prop := NoDup (map Stroke.id l).

(** Every stroke list the store holds, current or in its history, has
    unique ids. *)
Definition wellFormed (s : CanvasStore) : Prop :=
  uniqueIds (strokes s)
  ∧ Forall uniqueIds (undoStack s)
  ∧ Forall uniqueIds (redoStack s).

(** The ids an operation generates, in the order it generates them. *)
Definition generated (o : Op) (s : CanvasStore) : list string :=
  match o with
  | AddStroke _ e => [freshId e]
  | Paste _ _ gen => imap (λ k _, freshId (gen k)) (clipboard s)
  | DuplicateSelected _ gen => imap (λ k _, freshId (gen k)) (selectedOf s)
  | _ => []
  end.

(** The ids the operation generates are new: different from one another
    and from the ids of the strokes on the canvas. *)
Definition freshFor (o : Op) (s : CanvasStore) : Prop :=
  NoDup (generated o s)
  ∧ ∀ i, i ∈ generated o s → i ∉ map Stroke.id (strokes s).

(** How many calls of the sequence got past their guard. *)
Fixpoint countRecorded (ops : list Op) (state : CanvasStore) : nat :=
  match ops with
  | [] => 0
  | o :: ops' =>
      (if records o state then 1 else 0) + countRecorded ops' (apply o state)
  end.

(** ** Zoom (the handlers of the viewer and of the page component)

    The zoom percentage starts at 100 and only moves by the steps below,
    so it is kept in [Z]. *)

Module Zoom.

(** [Math.min(zoom + 25, 400)] *)
Definition zoomIn (zoom : Z) : Z := Z.min (zoom + 25) 400.

(** [Math.max(zoom - 25, 25)] *)
Definition zoomOut (zoom : Z) : Z := Z.max (zoom - 25) 25.

Definition resetZoom (zoom : Z) : Z := 100.

(** [handleWheel] with ctrl or meta held: [deltaYPositive] is
    [e.deltaY > 0]. *)
Definition wheel (deltaYPositive : bool) (zoom : Z) : Z :=
  let delta := if deltaYPositive then (-10)%Z else 10%Z in
  Z.min (Z.max (zoom + delta) 25) 400.

Inductive Action : Type :=
| ZoomIn | ZoomOut | ResetZoom | Wheel (deltaYPositive : bool).

Definition act (a : Action) (zoom : Z) : Z :=
  match a with
  | ZoomIn => zoomIn zoom
  | ZoomOut => zoomOut zoom
  | ResetZoom => resetZoom zoom
  | Wheel d => wheel d zoom
  end.

Definition initial : Z := 100.

End Zoom.

(** ** The page list of the page component *)

Module Pages.

Record Page : Type := mkPage { id : Z; name : string; hasAnnotations : bool }.

Record Home : Type := mkHome { pages : list Page; currentPage : Z }.

Definition initial : Home :=
  {| pages := [ {| id := 1; name := "Page 1"; hasAnnotations := false |} ];
     currentPage := 1 |}.

(** [Math.max(...ids)]; [None] stands for the [-Infinity] of an empty
    argument list. *)
Definition maxId (ids : list Z) : option Z :=
  match ids with
  | [] => None
  | i :: rest => Some (foldr Z.max i rest)
  end.

(** [handleAddPage]; [+ 1] is a binary64 addition.  With no page at all
    the new id would be [-Infinity], which [Z] does not hold; that case
    is left as it is. *)
Definition handleAddPage (h : Home) : Home :=
  match maxId (map id (pages h)) with
  | Some m =>
      let newId := Js.addNum m 1 in
      {| pages := pages h ++ [ {| id := newId; name := "Page " +:+ pretty newId;
                                 hasAnnotations := false |} ];
         currentPage := newId |}
  | None => h
  end.

(** [remaining[0]?.id || 1] *)
Definition firstIdOr1 (remaining : list Page) : Z :=
  match remaining !! 0 with
  | Some p => if bool_decide (id p = 0%Z) then 1%Z else id p
  | None => 1%Z
  end.

Definition handleDeletePage (i : Z) (h : Home) : Home :=
  if bool_decide (length (pages h) ≤ 1) then h
  else
    let remaining := filter (λ p, id p ≠ i) (pages h) in
    {| pages := remaining;
       currentPage := if bool_decide (currentPage h = i)
                      then firstIdOr1 remaining else currentPage h |}.

(** [pages.findIndex((p) => p.id === currentPage)], counting from [from]. *)
Fixpoint findIndexFrom (from : Z) (current : Z) (l : list Page) : Z :=
  match l with
  | [] => (-1)%Z
  | p :: rest =>
      if bool_decide (id p = current) then from
      else findIndexFrom (from + 1) current rest
  end.

Definition findIndex (h : Home) : Z := findIndexFrom 0 (currentPage h) (pages h).

Definition setCurrentPage (i : Z) (h : Home) : Home :=
  {| pages := pages h; currentPage := i |}.

(** [onPrevPage] and [onNextPage]; the index they read is in range
    whenever the test before it holds. *)
Definition onPrevPage (h : Home) : Home :=
  let idx := findIndex h in
  if bool_decide (0 < idx)%Z then
    match pages h !! Z.to_nat (idx - 1) with
    | Some p => setCurrentPage (id p) h
    | None => h
    end
  else h.

Definition onNextPage (h : Home) : Home :=
  let idx := findIndex h in
  if bool_decide (idx < Z.of_nat (length (pages h)) - 1)%Z then
    match pages h !! Z.to_nat (idx + 1) with
    | Some p => setCurrentPage (id p) h
    | None => h
    end
  else h.

(** [handlePdfLoaded], from the page numbers of the document's metadata. *)
Definition handlePdfLoaded (pageNumbers : list Z) (h : Home) : Home :=
  if bool_decide (0 < length pageNumbers) then
    {| pages := map (λ n, {| id := n; name := "Page " +:+ pretty n;
                             hasAnnotations := false |}) pageNumbers;
       currentPage := 1 |}
  else h.

(** The props the viewer gets: [currentPageIndex] and [totalPages]. *)
Definition currentPageIndex (h : Home) : Z := (findIndex h + 1)%Z.
Definition totalPages (h : Home) : nat := length (pages h).

(** What the user can do to the page list.  The sidebar only offers the
    pages of the list; a document is taken to number its pages with
    positive integers without repeats, 1 among them. *)
Inductive step : Home → Home → Prop :=
| step_add h : step h (handleAddPage h)
| step_delete i h : step h (handleDeletePage i h)
| step_prev h : step h (onPrevPage h)
| step_next h : step h (onNextPage h)
| step_select p h : p ∈ pages h → step h (setCurrentPage (id p) h)
| step_pdf pageNumbers h :
    NoDup pageNumbers → Forall (λ n, 0 < n ∧ Js.isNum n)%Z pageNumbers →
    1%Z ∈ pageNumbers →
    step h (handlePdfLoaded pageNumbers h).

Inductive reachable : Home → Prop :=
| reachable_initial : reachable initial
| reachable_step h h' : reachable h → step h h' → reachable h'.

(** All page ids are safe integers: below 2^53. *)
Definition safe (h : Home) : Prop :=
  Forall (λ p, Js.isSafeInteger (id p)) (pages h).

(** Reachable by steps that each start from a state with safe ids. *)
Inductive safelyReachable : Home → Prop :=
| safely_initial : safelyReachable initial
| safely_step h h' : safelyReachable h → safe h → step h h' → safelyReachable h'.

Definition invariant (h : Home) : Prop :=
  pages h ≠ []
  ∧ NoDup (map id (pages h))
  ∧ Forall (λ p, 0 < id p ∧ Js.isNum (id p))%Z (pages h)
  ∧ currentPage h ∈ map id (pages h).

(** A two-page document whose second page is numbered 2^53. *)
Definition farPage : Home := handlePdfLoaded [1; 2 ^ 53]%Z initial.

End Pages.

(** ** The PDF store *)

Module PdfStore.

Record t : Type := mk {
  pdfPath : option string;
  pagesMeta : list Prefetch.PdfPageMeta;
  renderedPages : gmap Z string;
  totalPages : Z;
  isLoading : bool;
  loadingPage : option Z;
  error : option string
}.

Definition initial : t :=
  {| pdfPath := None; pagesMeta := []; renderedPages := ∅; totalPages := 0;
     isLoading := false; loadingPage := None; error := None |}.

Definition setPdfPath (path : option string) (s : t) : t :=
  {| pdfPath := path; pagesMeta := pagesMeta s; renderedPages := renderedPages s;
     totalPages := totalPages s; isLoading := isLoading s;
     loadingPage := loadingPage s; error := error s |}.

Definition setPagesMeta (pages : list Prefetch.PdfPageMeta) (s : t) : t :=
  {| pdfPath := pdfPath s; pagesMeta := pages; renderedPages := renderedPages s;
     totalPages := Z.of_nat (length pages); isLoading := isLoading s;
     loadingPage := loadingPage s; error := error s |}.

(** [new Map(get().renderedPages)], then [newMap.set(pageNumber, imageData)]. *)
Definition setRenderedPage (pageNumber : Z) (imageData : string) (s : t) : t :=
  {| pdfPath := pdfPath s; pagesMeta := pagesMeta s;
     renderedPages := <[pageNumber := imageData]> (renderedPages s);
     totalPages := totalPages s; isLoading := isLoading s;
     loadingPage := loadingPage s; error := error s |}.

Definition getRenderedPage (pageNumber : Z) (s : t) : option string :=
  renderedPages s !! pageNumber.

Definition setTotalPages (count : Z) (s : t) : t :=
  {| pdfPath := pdfPath s; pagesMeta := pagesMeta s; renderedPages := renderedPages s;
     totalPages := count; isLoading := isLoading s;
     loadingPage := loadingPage s; error := error s |}.

Definition clearPdf (s : t) : t :=
  {| pdfPath := None; pagesMeta := []; renderedPages := ∅; totalPages := 0;
     isLoading := isLoading s; loadingPage := loadingPage s; error := None |}.

(** What the viewer's prefetch effect reads from the store, with its
    [currentPage] prop. *)
Definition depsOf (s : t) (currentPage : Z) : Prefetch.Deps :=
  {| Prefetch.pdfPath := pdfPath s; Prefetch.pagesMeta := pagesMeta s;
     Prefetch.renderedPages := renderedPages s;
     Prefetch.currentPage := currentPage |}.

(** How [renderPdfPage] can end: with a page, with [null], or by
    throwing. *)
Inductive RenderOutcome : Type :=
| Rendered (image_data : string)
| NoResult
| Threw.

(** [loadPage] of the prefetch effect.  [d] is what the closure captured,
    [cancelledBefore] and [cancelledAfter] are the closure's [cancelled]
    flag when the function is entered and when [renderPdfPage] has
    answered.  The flag in the result says whether the failure was
    logged. *)
Definition loadPage (cancelledBefore : bool) (d : Prefetch.Deps) (pageNum : Z)
    (outcome : RenderOutcome) (cancelledAfter : bool) (s : t) : t * bool :=
  if cancelledBefore || Prefetch.has d pageNum then (s, false)
  else
    match outcome with
    | Rendered image_data =>
        if negb cancelledAfter then (setRenderedPage pageNum image_data s, false)
        else (s, false)
    | NoResult => (s, false)
    | Threw => (s, true)
    end.

End PdfStore.

(** An uncancelled run of the effect left alone: [processQueue], the
    awaited load, the release of the flag, the timer, [processQueue]
    again, for as long as the timer is set.  The result lists the pages
    whose load was started, and the refs at the end. *)
Fixpoint drain (fuel : nat) (r : Prefetch.Refs) : list Z * Prefetch.Refs :=
  match fuel with
  | 0 => ([], r)
  | S fuel' =>
      match Prefetch.processQueue false r with
      | (r1, Some pageNum) =>
          let '(r2, again) := Prefetch.resume false r1 in
          if again then
            let '(started, r3) := drain fuel' r2 in (pageNum :: started, r3)
          else ([pageNum], r2)
      | (r1, None) => ([], r1)
      end
  end.

(** ** The colour store *)

Module ColorStore.

Record t : Type := mk { customColors : list string; recentColors : list string }.

Definition initial : t := {| customColors := []; recentColors := [] |}.

Definition addCustomColor (color : string) (s : t) : t :=
  let colors := customColors s in
  if negb (bool_decide (color ∈ colors)) && bool_decide (length colors < 16)
  then {| customColors := colors ++ [color]; recentColors := recentColors s |}
  else s.

Definition removeCustomColor (color : string) (s : t) : t :=
  {| customColors := filter (λ c, c ≠ color) (customColors s);
     recentColors := recentColors s |}.

(** [[color, ...recent].slice(0, 8)] *)
Definition addRecentColor (color : string) (s : t) : t :=
  let recent := filter (λ c, c ≠ color) (recentColors s) in
  {| customColors := customColors s;
     recentColors := take 8 (color :: recent) |}.

Inductive Action : Type :=
| AddCustom (color : string)
| RemoveCustom (color : string)
| AddRecent (color : string).

Definition act (a : Action) (s : t) : t :=
  match a with
  | AddCustom c => addCustomColor c s
  | RemoveCustom c => removeCustomColor c s
  | AddRecent c => addRecentColor c s
  end.

(** No colour twice, at most 16 custom and 8 recent colours. *)
Definition invariant (s : t) : Prop :=
  NoDup (customColors s) ∧ length (customColors s) ≤ 16
  ∧ NoDup (recentColors s) ∧ length (recentColors s) ≤ 8.

End ColorStore.
(** * Numbers that hold integers *)

Module JsFacts.

(** Up to 2^53 in magnitude nothing is rounded. *)
Lemma roundNum_small (z : Z) : (Z.abs z ≤ 2 ^ 53)%Z → Js.roundNum z = z.
Proof. intros H. unfold Js.roundNum. by rewrite bool_decide_eq_true_2. Qed.

(** [Js.addNum] and [Js.subNum] against the primitive binary64
    operations, where rounding sets in: 2^53 + 1 and 2^54 - 1 round to
    even, 2^53 + 2 + 1 rounds up, 2^53 + 2 - 1 rounds down, and below 2^53
    the sum is exact. *)
Lemma roundNum_binary64 :
  Js.ofFloat (Js.toFloat (2 ^ 53) + 1) = Some (Js.addNum (2 ^ 53) 1)
  ∧ Js.ofFloat (Js.toFloat (2 ^ 54) - 1) = Some (Js.subNum (2 ^ 54) 1)
  ∧ Js.ofFloat (Js.toFloat (2 ^ 53 + 2) + 1) = Some (Js.addNum (2 ^ 53 + 2) 1)
  ∧ Js.ofFloat (Js.toFloat (2 ^ 53 - 1) + 1) = Some (Js.addNum (2 ^ 53 - 1) 1)
  ∧ Js.ofFloat (Js.toFloat (2 ^ 53 + 2) - 1) = Some (Js.subNum (2 ^ 53 + 2) 1)
  ∧ Js.addNum (2 ^ 53) 1 = (2 ^ 53)%Z
  ∧ Js.subNum (2 ^ 54) 1 = (2 ^ 54)%Z.
Proof. vm_compute. done. Qed.

End JsFacts.


(** ** History lemmas *)

Lemma length_zero_nil {A} (l : list A) : length l = 0 ↔ l = [].
Proof. destruct l; naive_solver. Qed.

Lemma drop_last_snoc {A} (l : list A) (a : A) :
  take (length (l ++ [a]) - 1) (l ++ [a]) = l.
Proof.
  rewrite length_app. simpl.
  replace (length l + 1 - 1) with (length l) by lia.
  apply take_app_length.
Qed.

Lemma records_true (o : Op) (s : CanvasStore) :
  records o s = true → pushes s (apply o s).
Proof.
  unfold pushes.
  destruct o; simpl; intros Hg; try done.
  - unfold deleteSelectedStrokes. apply bool_decide_eq_true in Hg.
    rewrite bool_decide_eq_false_2; [done | by rewrite length_zero_nil].
  - unfold cutSelected. apply bool_decide_eq_true in Hg.
    rewrite bool_decide_eq_false_2; [done | by rewrite length_zero_nil].
  - unfold paste. apply bool_decide_eq_true in Hg.
    rewrite bool_decide_eq_false_2; [done | by rewrite length_zero_nil].
  - unfold duplicateSelected. apply bool_decide_eq_true in Hg.
    rewrite bool_decide_eq_false_2; [done | by rewrite length_zero_nil].
Qed.

Lemma records_false (o : Op) (s : CanvasStore) :
  records o s = false → apply o s = s.
Proof.
  destruct o; simpl; intros Hg; try done;
    apply bool_decide_eq_false in Hg;
    assert (Hnil : ∀ {A} (l : list A), ¬ l ≠ [] → length l = 0)
      by (intros A [|? ?] Hl; [done | by destruct Hl]).
  - unfold deleteSelectedStrokes. by rewrite bool_decide_eq_true_2; auto.
  - unfold cutSelected. by rewrite bool_decide_eq_true_2; auto.
  - unfold paste. by rewrite bool_decide_eq_true_2; auto.
  - unfold duplicateSelected. by rewrite bool_decide_eq_true_2; auto.
Qed.

Lemma run_redo_empty (ops : list Op) (s : CanvasStore) :
  redoStack s = [] ∨ recorded ops s = true → redoStack (run ops s) = [].
Proof.
  revert s. induction ops as [|o ops IH]; intros s [H|H]; simpl in *; try done.
  - apply IH. left. destruct (records o s) eqn:Hg.
    + by apply records_true in Hg as [_ ?].
    + by rewrite records_false.
  - apply IH. destruct (records o s) eqn:Hg.
    + left. by apply records_true in Hg as [_ ?].
    + right. exact H.
Qed.

Lemma undo_nil (s : CanvasStore) : undoStack s = [] → undo s = (false, s).
Proof. intros H. unfold undo. by rewrite H. Qed.

Lemma redo_nil (s : CanvasStore) : redoStack s = [] → redo s = (false, s).
Proof. intros H. unfold redo. by rewrite H. Qed.

Lemma undo_snoc S U P R c i ids cb :
  undo (mkStore S (U ++ [P]) R c i ids cb)
  = (true, mkStore P U (R ++ [S]) c i ids cb).
Proof.
  unfold undo, set. cbn [undoStack redoStack strokes currentPageId selectedStrokeId
    selectedStrokeIds clipboard p_strokes p_undoStack p_redoStack p_currentPageId
    p_selectedStrokeId p_selectedStrokeIds p_clipboard default].
  by rewrite last_snoc, drop_last_snoc.
Qed.

Lemma redo_snoc S U N R c i ids cb :
  redo (mkStore S U (R ++ [N]) c i ids cb)
  = (true, mkStore N (U ++ [S]) R c i ids cb).
Proof.
  unfold redo, set. cbn [undoStack redoStack strokes currentPageId selectedStrokeId
    selectedStrokeIds clipboard p_strokes p_undoStack p_redoStack p_currentPageId
    p_selectedStrokeId p_selectedStrokeIds p_clipboard default].
  by rewrite last_snoc, drop_last_snoc.
Qed.

Lemma snoc_cases {A} (l : list A) : l = [] ∨ ∃ l' a, l = l' ++ [a].
Proof.
  destruct (last l) as [a|] eqn:E.
  - right. apply last_Some in E as [l' ->]. eauto.
  - left. by apply last_None.
Qed.

Lemma redo_after_undo (s : CanvasStore) :
  undoStack s ≠ [] → redo (undo s).2 = (true, s).
Proof.
  destruct s as [S U R c i ids cb]. simpl. intros HU.
  destruct (snoc_cases U) as [->|(U' & P & ->)]; [done|].
  rewrite undo_snoc. simpl. apply redo_snoc.
Qed.

Lemma undo_length (s : CanvasStore) :
  length (undoStack (undo s).2) = length (undoStack s) - 1.
Proof.
  destruct s as [S U R c i ids cb].
  destruct (snoc_cases U) as [->|(U' & P & ->)]; [done|].
  rewrite undo_snoc. simpl. rewrite length_app. simpl. lia.
Qed.

Lemma undoTimes_length (n : nat) (s : CanvasStore) :
  length (undoStack (undoTimes n s)) = length (undoStack s) - n.
Proof.
  induction n as [|n IH]; simpl; [lia|].
  rewrite undo_length. fold (undoTimes n s). lia.
Qed.

Lemma undoTimes_exhausted (n : nat) (s : CanvasStore) :
  undoStack s = [] → undoTimes n s = s.
Proof.
  intros H. induction n as [|n IH]; simpl; [done|].
  fold (undoTimes n s). rewrite IH. by rewrite undo_nil.
Qed.

Lemma redoTimes_exhausted (n : nat) (s : CanvasStore) :
  redoStack s = [] → redoTimes n s = s.
Proof.
  intros H. induction n as [|n IH]; simpl; [done|].
  fold (redoTimes n s). rewrite IH. by rewrite redo_nil.
Qed.

Lemma redoTimes_undoTimes_within (k : nat) (s : CanvasStore) :
  k ≤ length (undoStack s) → redoTimes k (undoTimes k s) = s.
Proof.
  revert s. induction k as [|k IH]; intros s Hk; [done|].
  unfold undoTimes. rewrite Nat.iter_succ_r. fold (undoTimes k (undo s).2).
  unfold redoTimes. simpl. fold (redoTimes k (undoTimes k (undo s).2)).
  rewrite IH by (rewrite undo_length; lia).
  rewrite redo_after_undo; [done|].
  intros E. rewrite E in Hk. simpl in Hk. lia.
Qed.

Lemma redoTimes_undoTimes (n : nat) (s : CanvasStore) :
  redoStack s = [] → redoTimes n (undoTimes n s) = s.
Proof.
  intros HR.
  destruct (decide (n ≤ length (undoStack s))) as [Hle|Hgt].
  { by apply redoTimes_undoTimes_within. }
  set (m := length (undoStack s)).
  assert (Hu : undoTimes n s = undoTimes m s).
  { replace n with ((n - m) + m) by lia.
    unfold undoTimes at 1. rewrite Nat.iter_add.
    fold (undoTimes m s). fold (undoTimes (n - m) (undoTimes m s)).
    apply undoTimes_exhausted, length_zero_nil.
    rewrite undoTimes_length. lia. }
  rewrite Hu. replace n with ((n - m) + m) by lia.
  unfold redoTimes at 1. rewrite Nat.iter_add.
  fold (redoTimes m (undoTimes m s)).
  rewrite redoTimes_undoTimes_within by done.
  by apply redoTimes_exhausted.
Qed.

(** ** Undo and redo *)

Lemma undo_flag (t : CanvasStore) : (undo t).1 = true ↔ undoStack t ≠ [].
Proof.
  unfold undo. destruct (last (undoStack t)) eqn:E; simpl.
  - split; [|done]. intros _ H. by rewrite H in E.
  - apply last_None in E. split; [done|]. by intros [].
Qed.

Lemma redo_flag (t : CanvasStore) : (redo t).1 = true ↔ redoStack t ≠ [].
Proof.
  unfold redo. destruct (last (redoStack t)) eqn:E; simpl.
  - split; [|done]. intros _ H. by rewrite H in E.
  - apply last_None in E. split; [done|]. by intros [].
Qed.

Lemma canUndo_false (t : CanvasStore) : canUndo t = false ↔ undoStack t = [].
Proof.
  unfold canUndo. rewrite bool_decide_eq_false.
  destruct (undoStack t); simpl; split; try done; lia.
Qed.

Lemma canRedo_false (t : CanvasStore) : canRedo t = false ↔ redoStack t = [].
Proof.
  unfold canRedo. rewrite bool_decide_eq_false.
  destruct (redoStack t); simpl; split; try done; lia.
Qed.

(** C1 (as amended).  Take any store state and any sequence of N
    mutating operations such that the redo stack was empty beforehand, or
    at least one of the operations got past its guard, or the undo stack
    holds at least N entries afterwards.  Then N calls of [undo] followed
    by N calls of [redo] give back the stroke list the operations
    produced (indeed the whole state).  In every state [undo] and [redo]
    return true exactly when their stack is non-empty, and [canUndo] and
    [canRedo] are false exactly when theirs is empty. *)
Theorem undo_redo_inverse (s : CanvasStore) (ops : list Op) :
  redoStack s = [] ∨ recorded ops s = true
  ∨ length ops ≤ length (undoStack (run ops s)) →
  let after := run ops s in
  let n := length ops in
  strokes (redoTimes n (undoTimes n after)) = strokes after
  ∧ redoTimes n (undoTimes n after) = after
  ∧ (∀ t, (undo t).1 = true ↔ undoStack t ≠ [])
  ∧ (∀ t, (redo t).1 = true ↔ redoStack t ≠ [])
  ∧ (∀ t, canUndo t = false ↔ undoStack t = [])
  ∧ (∀ t, canRedo t = false ↔ redoStack t = []).
Proof.
  intros H after n.
  assert (E : redoTimes n (undoTimes n after) = after).
  { destruct H as [H|[H|H]].
    - apply redoTimes_undoTimes, run_redo_empty. by left.
    - apply redoTimes_undoTimes, run_redo_empty. by right.
    - by apply redoTimes_undoTimes_within. }
  rewrite E.
  split_and!; [done | done | apply undo_flag | apply redo_flag
              | apply canUndo_false | apply canRedo_false].
Qed.

(** Drawing a stroke and erasing it again, from the initial store: two
    undos and two redos lead back to the empty canvas the edits left. *)
Lemma undo_redo_inverse_witness :
  let ops := [AddStroke (penAt 10 10) (tick 0); DeleteStroke (freshId (tick 0))] in
  strokes (redoTimes 2 (undoTimes 2 (run ops initialStore))) = [].
Proof.
  intros ops.
  pose proof (undo_redo_inverse initialStore ops (or_introl eq_refl)) as [H _].
  exact H.
Defined.

(** C1 as stated fails when no operation of the sequence records
    anything and redo history is left from before: after drawing a stroke
    and undoing it, [deleteSelectedStrokes] with nothing selected returns
    at its guard; the following [undo] finds an empty stack and returns
    false, and the following [redo] brings the stroke back, so the stroke
    list is no longer the (empty) one the operation left. *)
Lemma undo_redo_inverse_counterexample :
  let ops := [DeleteSelectedStrokes] in
  strokes (run ops undone) = []
  ∧ (undo (run ops undone)).1 = false
  ∧ (redo (undoTimes 1 (run ops undone))).1 = true
  ∧ strokes (redoTimes 1 (undoTimes 1 (run ops undone))) ≠ strokes (run ops undone).
Proof. split_and!; [reflexivity.. | vm_compute; discriminate]. Qed.

(** ** History effect of the edits *)

(** C2 (as amended).  [addStroke], [updateStroke], [deleteStroke] and
    [clearPage] always push the strokes as they were on the undo stack
    and empty the redo stack; [deleteSelectedStrokes], [cutSelected] and
    [duplicateSelected] do so when something is selected and [paste]
    when the clipboard is not empty, and otherwise leave the whole state
    as it is. *)
Theorem new_edit_clears_redo (s : CanvasStore) :
  (∀ d e, pushes s (addStroke d e s))
  ∧ (∀ i u, pushes s (updateStroke i u s))
  ∧ (∀ i, pushes s (deleteStroke i s))
  ∧ (∀ page, pushes s (clearPage page s))
  ∧ (if bool_decide (selectedStrokeIds s ≠ [])
     then pushes s (deleteSelectedStrokes s)
          ∧ pushes s (cutSelected s)
          ∧ ∀ page gen, pushes s (duplicateSelected page gen s)
     else deleteSelectedStrokes s = s
          ∧ cutSelected s = s
          ∧ ∀ page gen, duplicateSelected page gen s = s)
  ∧ (if bool_decide (clipboard s ≠ [])
     then ∀ page offset gen, pushes s (paste page offset gen s)
     else ∀ page offset gen, paste page offset gen s = s).
Proof.
  split_and!; try done.
  - destruct (bool_decide (selectedStrokeIds s ≠ [])) eqn:E; split_and!; intros.
    + by apply (records_true DeleteSelectedStrokes).
    + by apply (records_true CutSelected).
    + by apply (records_true (DuplicateSelected page gen)).
    + by apply (records_false DeleteSelectedStrokes).
    + by apply (records_false CutSelected).
    + by apply (records_false (DuplicateSelected page gen)).
  - destruct (bool_decide (clipboard s ≠ [])) eqn:E; intros.
    + by apply (records_true (Paste page offset gen)).
    + by apply (records_false (Paste page offset gen)).
Qed.

(** C2 as stated fails at the guards: with nothing selected,
    [deleteSelectedStrokes] pushes nothing and the redo entry left by an
    earlier undo survives it. *)
Lemma guarded_edit_keeps_redo :
  redoStack undone ≠ []
  ∧ redoStack (deleteSelectedStrokes undone) ≠ []
  ∧ undoStack (deleteSelectedStrokes undone) ≠ undoStack undone ++ [strokes undone].
Proof. vm_compute. split_and!; discriminate. Qed.

(** C3.  [updateStroke] with an id no stroke carries leaves the stroke
    list as it is, and still pushes one history entry and empties the redo
    stack. *)
Theorem updateStroke_missing_id (i : string) (updates : Updates.t) (s : CanvasStore) :
  (∀ st, st ∈ strokes s → Stroke.id st ≠ i) →
  strokes (updateStroke i updates s) = strokes s
  ∧ undoStack (updateStroke i updates s) = undoStack s ++ [strokes s]
  ∧ length (undoStack (updateStroke i updates s)) = S (length (undoStack s))
  ∧ redoStack (updateStroke i updates s) = [].
Proof.
  intros Hmiss. split_and!; try done.
  - simpl. induction (strokes s) as [|st l IH]; [done|]. simpl.
    rewrite bool_decide_eq_false_2 by (apply Hmiss; left).
    f_equal. apply IH. intros st' Hin. apply Hmiss. by right.
  - simpl. rewrite length_app. simpl. lia.
Qed.

Lemma updateStroke_missing_id_witness :
  strokes (updateStroke "stroke-0-absent" thicker drawn) = strokes drawn
  ∧ length (undoStack (updateStroke "stroke-0-absent" thicker drawn)) = 2.
Proof.
  assert (H : ∀ st, st ∈ strokes drawn → Stroke.id st ≠ "stroke-0-absent").
  { intros st Hin. apply list_elem_of_singleton in Hin as ->. vm_compute. discriminate. }
  pose proof (updateStroke_missing_id "stroke-0-absent" thicker drawn H)
    as (H1 & _ & H3 & _).
  exact (conj H1 H3).
Defined.

(** ** Deleting what is already gone *)

(** C4 (as amended).  [deleteStroke] with an id no stroke carries leaves
    the stroke list as it is but still pushes one more undo entry (the
    unchanged stroke list) and empties the redo stack;
    [deleteSelectedStrokes], once the earlier removal has emptied the
    selection, changes nothing and adds no undo entry. *)
Theorem deleteStroke_missing_id (i : string) (s : CanvasStore) :
  (∀ st, st ∈ strokes s → Stroke.id st ≠ i) →
  strokes (deleteStroke i s) = strokes s
  ∧ undoStack (deleteStroke i s) = undoStack s ++ [strokes s]
  ∧ redoStack (deleteStroke i s) = []
  ∧ (∀ t, (∀ j, j ∈ selectedStrokeIds t → j = i) →
          selectedStrokeIds (deleteStroke i t) = []
          ∧ deleteSelectedStrokes (deleteStroke i t) = deleteStroke i t).
Proof.
  intros Hmiss. split_and!; try done.
  - simpl. induction (strokes s) as [|st l IH]; [done|].
    rewrite filter_cons_True by (apply Hmiss; left).
    f_equal. apply IH. intros st' Hin. apply Hmiss. by right.
  - intros t Hsel.
    assert (E : selectedStrokeIds (deleteStroke i t) = []).
    { simpl. induction (selectedStrokeIds t) as [|j l IH]; [done|].
      rewrite filter_cons_False by (intros Hne; apply Hne, Hsel; left).
      apply IH. intros j' Hin. apply Hsel. by right. }
    split; [done|]. unfold deleteSelectedStrokes. by rewrite E.
Qed.

Lemma deleteStroke_missing_id_witness :
  strokes (deleteStroke (freshId (tick 0)) erased) = strokes erased
  ∧ deleteSelectedStrokes (deleteStroke (freshId (tick 0)) picked)
    = deleteStroke (freshId (tick 0)) picked.
Proof.
  assert (H : ∀ st, st ∈ strokes erased → Stroke.id st ≠ freshId (tick 0)).
  { intros st Hin. vm_compute in Hin. by apply elem_of_nil in Hin. }
  pose proof (deleteStroke_missing_id (freshId (tick 0)) erased H) as (H1 & _ & _ & H4).
  split; [exact H1|].
  apply (H4 picked). intros j Hin.
  change (selectedStrokeIds picked) with [freshId (tick 0)] in Hin.
  by apply list_elem_of_singleton in Hin.
Defined.

(** C4 as stated fails for [deleteStroke]: called a second time with the
    id the eraser pass already removed, it pushes a further undo entry. *)
Lemma deleteStroke_missing_id_pushes :
  (∀ st, st ∈ strokes erased → Stroke.id st ≠ freshId (tick 0))
  ∧ length (undoStack erased) = 2
  ∧ length (undoStack (deleteStroke (freshId (tick 0)) erased)) = 3.
Proof.
  split; [|done]. intros st Hin. vm_compute in Hin. by apply elem_of_nil in Hin.
Qed.

(** ** Paste *)

Lemma freshId_truthy (e : Entropy.t) : Js.truthy (freshId e) = true.
Proof. reflexivity. Qed.

Lemma firstIdOrNull_imap (f : nat → Stroke.t → Stroke.t) (l : list Stroke.t) :
  (∀ k c, Js.truthy (Stroke.id (f k c)) = true) →
  firstIdOrNull (imap f l) = head (map Stroke.id (imap f l)).
Proof.
  intros Hf. destruct l as [|c l]; [done|].
  unfold firstIdOrNull. simpl. by rewrite Hf.
Qed.

(** *** Generated ids

    [freshId] is injective in the clock reading and the random suffix:
    the digits of the clock reading end at the first hyphen after the
    sign. *)

Lemma append_cons (c : ascii) (a b : string) : String c a +:+ b = String c (a +:+ b).
Proof. reflexivity. Qed.

Lemma append_nil_r (a : string) : a +:+ "" = a.
Proof. induction a as [|c a IH]; [done|]. by rewrite append_cons, IH. Qed.

Lemma append_snoc (a : string) (c : ascii) (s : string) :
  a +:+ String c s = (a +:+ String c "") +:+ s.
Proof. induction a as [|d a IH]; [done|]. by rewrite !append_cons, IH. Qed.

Lemma pretty_N_char_no_dash (x : N) : pretty_N_char x ≠ "-"%char.
Proof. unfold pretty_N_char. by repeat case_match. Qed.

Lemma pretty_N_go_prefix (x : N) (s : string) :
  ∃ pre, pretty_N_go x s = pre +:+ s ∧ noDash pre ∧ ((0 < x)%N → pre ≠ "").
Proof.
  revert s. induction (N.lt_wf_0 x) as [x _ IH]; intros s.
  assert (x = 0 ∨ 0 < x)%N as [->|Hx] by lia.
  - exists "". rewrite pretty_N_go_0. split_and!; [done | done | lia].
  - rewrite pretty_N_go_step by done.
    destruct (IH (x `div` 10)%N (N.div_lt x 10 Hx eq_refl)
                (String (pretty_N_char (x `mod` 10)) s)) as (pre & E & Hpre & _).
    rewrite E.
    exists (pre +:+ String (pretty_N_char (x `mod` 10)) "").
    split_and!.
    + apply append_snoc.
    + clear -Hpre. induction pre as [|c pre IHp].
      * split; [apply pretty_N_char_no_dash | done].
      * rewrite append_cons. destruct Hpre. split; [done | by apply IHp].
    + intros _. by destruct pre.
Qed.

Lemma pretty_N_digits (x : N) : ∃ c pre, pretty x = String c pre ∧ noDash (String c pre).
Proof.
  unfold pretty, pretty_N. case_decide as Hx.
  - exists "0"%char, "". split; [done|]. by split.
  - destruct (pretty_N_go_prefix x "") as (pre & -> & Hpre & Hne).
    destruct pre as [|c pre]; [by destruct Hne; [lia|]|].
    exists c, pre. rewrite append_nil_r. by split.
Qed.

Lemma noDash_split (a b r1 r2 : string) :
  noDash a → noDash b →
  a +:+ String "-" r1 = b +:+ String "-" r2 → a = b ∧ r1 = r2.
Proof.
  revert b. induction a as [|c a IH]; intros [|d b] Ha Hb;
    rewrite ?append_cons; change ("" +:+ ?s) with s.
  - by intros [= ->].
  - intros [= <- _]. by destruct Hb.
  - intros [= -> _]. by destruct Ha.
  - intros [= -> H]. destruct Ha, Hb.
    destruct (IH b) as [-> ->]; done.
Qed.

Lemma pretty_Z_split (x y : Z) (r1 r2 : string) :
  pretty x +:+ String "-" r1 = pretty y +:+ String "-" r2 → x = y ∧ r1 = r2.
Proof.
  assert (Hpos : ∀ p : positive, ∃ c pre, pretty (Zpos p) = String c pre ∧ noDash (String c pre)).
  { intros p. apply (pretty_N_digits (N.pos p)). }
  assert (Hneg : ∀ p : positive, ∃ c pre, pretty (Zneg p) = String "-" (String c pre) ∧ noDash (String c pre)).
  { intros p. destruct (pretty_N_digits (N.pos p)) as (c & pre & E & H).
    exists c, pre. split; [|done]. unfold pretty, pretty_Z. 
    change (pretty p) with (pretty (N.pos p)). by rewrite E. }
  assert (H0 : ∃ c pre, pretty 0%Z = String c pre ∧ noDash (String c pre)).
  { exists "0"%char, "". split; [done|]. by split. }
  assert (Hnn : ∀ z, (0 ≤ z)%Z → ∃ c pre, pretty z = String c pre ∧ noDash (String c pre)).
  { intros [|p|p] Hz; [done | apply Hpos | lia]. }
  intros E.
  destruct (Z.le_gt_cases 0 x) as [Hx|Hx], (Z.le_gt_cases 0 y) as [Hy|Hy].
  - destruct (Hnn x Hx) as (c & a & Ea & Ha), (Hnn y Hy) as (d & b & Eb & Hb).
    rewrite Ea, Eb in E. apply noDash_split in E as [E ->]; [|done..].
    split; [|done]. apply (inj pretty). by rewrite Ea, Eb, E.
  - destruct (Hnn x Hx) as (c & a & Ea & [Hc _]).
    destruct y as [|q|q]; [lia..|]. destruct (Hneg q) as (d & b & Eb & _).
    rewrite Ea, Eb in E. rewrite !append_cons in E. by injection E as -> _.
  - destruct (Hnn y Hy) as (c & a & Ea & [Hc _]).
    destruct x as [|q|q]; [lia..|]. destruct (Hneg q) as (d & b & Eb & _).
    rewrite Ea, Eb in E. rewrite !append_cons in E. by injection E as <- _.
  - destruct x as [|p|p]; [lia..|]. destruct y as [|q|q]; [lia..|].
    destruct (Hneg p) as (c & a & Ea & Ha), (Hneg q) as (d & b & Eb & Hb).
    rewrite Ea, Eb in E. rewrite !append_cons in E. injection E as -> E.
    destruct Ha as [_ Ha], Hb as [_ Hb].
    apply noDash_split in E as [-> ->]; [|done..].
    split; [|done]. apply (inj pretty). by rewrite Ea, Eb.
Qed.

(** Two generated ids are equal exactly when clock reading and random
    suffix are. *)
Lemma freshId_inj (e1 e2 : Entropy.t) :
  freshId e1 = freshId e2 ↔ sameReading e1 e2.
Proof.
  unfold freshId, sameReading. split.
  - intros E. apply (inj (String.app "stroke-")) in E.
    by apply pretty_Z_split in E.
  - by intros [-> ->].
Qed.

(** C5 (as amended).  With a non-empty clipboard, [paste pageId offset]
    (offset (20, 20) when omitted) appends one copy per clipboard stroke,
    in order: its points are the clipboard stroke's points moved by the
    offset, its page is [pageId], its timestamp is the clock reading, its
    other fields are the clipboard stroke's, and its id is generated from
    a clock reading and a random suffix.  The generated id is the id
    generated from another reading exactly when both the clock value and
    the suffix repeat; so the ids of the copies differ from one another
    and from the generated ids in use whenever the readings differ, and
    nothing else keeps them apart.  The new selection is exactly the ids
    of the copies and the primary selection is the first of them. *)
Theorem paste_spec (page : Z) (offset : option Point.t) (gen : nat → Entropy.t)
    (s : CanvasStore) :
  clipboard s ≠ [] →
  let off := default {| Point.x := 20; Point.y := 20 |} offset in
  let s' := paste page offset gen s in
  ∃ pasted : list Stroke.t,
    strokes s' = strokes s ++ pasted
    ∧ length pasted = length (clipboard s)
    ∧ (∀ k c, clipboard s !! k = Some c →
         ∃ n, pasted !! k = Some n
           ∧ Stroke.points n
             = map (λ p, {| Point.x := (Point.x p + Point.x off)%float;
                            Point.y := (Point.y p + Point.y off)%float |})
                   (Stroke.points c)
           ∧ Stroke.id n = freshId (gen k)
           ∧ (∀ e, Stroke.id n = freshId e ↔ sameReading (gen k) e)
           ∧ Stroke.timestamp n = Entropy.tsNow (gen k)
           ∧ Stroke.pageId n = page
           ∧ Stroke.color n = Stroke.color c
           ∧ Stroke.thickness n = Stroke.thickness c
           ∧ Stroke.opacity n = Stroke.opacity c
           ∧ Stroke.tool n = Stroke.tool c
           ∧ Stroke.fillColor n = Stroke.fillColor c
           ∧ Stroke.backgroundColor n = Stroke.backgroundColor c)
    ∧ (∀ k j nk nj, pasted !! k = Some nk → pasted !! j = Some nj →
         ¬ sameReading (gen k) (gen j) → Stroke.id nk ≠ Stroke.id nj)
    ∧ (∀ k nk old e, pasted !! k = Some nk → old ∈ strokes s →
         Stroke.id old = freshId e → ¬ sameReading (gen k) e →
         Stroke.id nk ≠ Stroke.id old)
    ∧ selectedStrokeIds s' = map Stroke.id pasted
    ∧ selectedStrokeId s' = head (map Stroke.id pasted)
    ∧ is_Some (selectedStrokeId s').
Proof.
  intros Hne off s'.
  exists (imap (λ k c, copyTo page off (gen k) c) (clipboard s)).
  assert (Hs' : s' = set
    {| p_strokes := Some (strokes s ++ imap (λ k c, copyTo page off (gen k) c) (clipboard s));
       p_undoStack := Some (undoStack s ++ [strokes s]);
       p_redoStack := Some [];
       p_currentPageId := None;
       p_selectedStrokeId :=
         Some (firstIdOrNull (imap (λ k c, copyTo page off (gen k) c) (clipboard s)));
       p_selectedStrokeIds :=
         Some (map Stroke.id (imap (λ k c, copyTo page off (gen k) c) (clipboard s)));
       p_clipboard := None |} s).
  { subst s'. unfold paste.
    rewrite bool_decide_eq_false_2; [done | by rewrite length_zero_nil]. }
  assert (Hid : ∀ k n,
            imap (λ k c, copyTo page off (gen k) c) (clipboard s) !! k = Some n →
            Stroke.id n = freshId (gen k)).
  { intros k n. rewrite list_lookup_imap.
    destruct (clipboard s !! k); [|done]. by intros [= <-]. }
  rewrite Hs'. simpl.
  rewrite firstIdOrNull_imap by (intros; apply freshId_truthy).
  split_and!; try done.
  - apply length_imap.
  - intros k c Hk. exists (copyTo page off (gen k) c).
    rewrite list_lookup_imap, Hk. split_and!; try done.
    intros e. apply freshId_inj.
  - intros k j nk nj Hk Hj Hne'. rewrite (Hid k nk Hk), (Hid j nj Hj).
    by rewrite freshId_inj.
  - intros k nk old e Hk _ Hold Hne'. rewrite (Hid k nk Hk), Hold.
    by rewrite freshId_inj.
  - destruct (clipboard s); [done|]. simpl. eauto.
Qed.

(** The example of the specification: a pen stroke with the single point
    (10, 10) on the clipboard, pasted on page 1 with the default offset a
    millisecond later, comes back as a stroke at (30, 30) under an id
    that differs from the id of the stroke it was copied from. *)
Lemma paste_example :
  ∃ n, n ∈ strokes (paste 1 None laterTick copied)
       ∧ Stroke.points n = [ {| Point.x := 30; Point.y := 30 |} ]
       ∧ Stroke.pageId n = 1%Z
       ∧ Stroke.id n = "stroke-1700000000001-k3j2h1g0f"
       ∧ (∀ old, old ∈ strokes copied → Stroke.id n ≠ Stroke.id old)
       ∧ selectedStrokeIds (paste 1 None laterTick copied) = [Stroke.id n].
Proof.
  assert (Hne : clipboard copied ≠ []) by (vm_compute; discriminate).
  destruct (paste_spec 1 None laterTick copied Hne)
    as (pasted & Hs & Hlen & Hcopy & _ & Hfresh & Hsel & _).
  destruct pasted as [|n [|? ?]]; try discriminate Hlen.
  destruct (clipboard copied) as [|c cs] eqn:Ec; [done|].
  destruct (Hcopy 0 c eq_refl) as (n' & Hn' & Hpts & Hid & _ & _ & Hpage & _).
  injection Hn' as <-.
  injection Ec as <- _.
  exists n. split_and!.
  - rewrite Hs. apply elem_of_app. right. left.
  - rewrite Hpts. reflexivity.
  - exact Hpage.
  - rewrite Hid. reflexivity.
  - intros old Hold. apply (Hfresh 0 n old (tick 0) eq_refl Hold).
    + apply list_elem_of_singleton in Hold as ->. reflexivity.
    + intros [H _]. vm_compute in H. discriminate H.
  - rewrite Hsel. reflexivity.
Defined.

(** C5 as stated fails on the id: when the clock reading and the random
    suffix of the paste are those the copied stroke's id was generated
    from, the copy at (30, 30) carries the id of the stroke at (10, 10)
    it was copied from, which is still on the canvas. *)
Lemma paste_id_not_fresh :
  ∃ old new,
    strokes (paste 1 None (λ _, tick 0) copied) = [old; new]
    ∧ clipboard copied = [old]
    ∧ Stroke.points old = [ {| Point.x := 10; Point.y := 10 |} ]
    ∧ Stroke.points new = [ {| Point.x := 30; Point.y := 30 |} ]
    ∧ Stroke.id new = Stroke.id old.
Proof. eexists _, _. vm_compute. done. Qed.

(** ** Selection *)

(** C8 (as amended).  After [selectStroke] (with [null] or a non-empty
    id), [selectStrokes], [removeFromSelection] and [clearSelection] the
    primary selection is the first selected id, or [null] when nothing is
    selected.  [addToSelection] of an id that is already selected changes
    nothing; of a new id, it appends the id and makes it the primary
    selection, which is then the last selected id, and the first one only
    when nothing was selected before. *)
Theorem primary_selection (s : CanvasStore) :
  (∀ i, i ≠ Some "" → primaryIsFirst (selectStroke i s))
  ∧ (∀ ids, primaryIsFirst (selectStrokes ids s))
  ∧ (∀ i, primaryIsFirst (removeFromSelection i s))
  ∧ primaryIsFirst (clearSelection s)
  ∧ (∀ i, if bool_decide (i ∈ selectedStrokeIds s)
          then addToSelection i s = s
          else selectedStrokeIds (addToSelection i s) = selectedStrokeIds s ++ [i]
               ∧ selectedStrokeId (addToSelection i s) = Some i
               ∧ selectedStrokeId (addToSelection i s)
                 = last (selectedStrokeIds (addToSelection i s))
               ∧ (primaryIsFirst (addToSelection i s) ↔ selectedStrokeIds s = [])).
Proof.
  unfold primaryIsFirst. split_and!.
  - intros [i|] Hi; [|done]. simpl.
    destruct i as [|a i]; [done|]. reflexivity.
  - intros [|i ids]; done.
  - intros i. simpl.
    by destruct (filter (λ sid, sid ≠ i) (selectedStrokeIds s)).
  - done.
  - intros i. unfold addToSelection.
    destruct (bool_decide (i ∈ selectedStrokeIds s)) eqn:E; [done|].
    apply bool_decide_eq_false in E. simpl.
    split_and!; try done.
    + by rewrite last_snoc.
    + destruct (selectedStrokeIds s) as [|j l] eqn:El; [done|]. simpl.
      split; [|done]. intros [= ->]. destruct E. left.
Qed.

Lemma primary_selection_witness :
  primaryIsFirst (selectStroke (Some "stroke-1-a") initialStore)
  ∧ selectedStrokeId twoSelected = last (selectedStrokeIds twoSelected).
Proof.
  destruct (primary_selection initialStore) as (H1 & _).
  split; [by apply H1|].
  destruct (primary_selection (selectStroke (Some "stroke-1-a") initialStore))
    as (_ & _ & _ & _ & H5).
  specialize (H5 "stroke-2-b").
  rewrite bool_decide_eq_false_2 in H5
    by (intros Hin; apply list_elem_of_singleton in Hin; discriminate Hin).
  by destruct H5 as (_ & _ & H & _).
Defined.

(** C8 as stated fails for [addToSelection]: with one id selected, adding
    a second one makes the second the primary selection, while the first
    selected id stays first. *)
Lemma addToSelection_primary_is_last :
  selectedStrokeIds twoSelected = ["stroke-1-a"; "stroke-2-b"]
  ∧ selectedStrokeId twoSelected = Some "stroke-2-b"
  ∧ ¬ primaryIsFirst twoSelected.
Proof. split_and!; [done | done | vm_compute; discriminate]. Qed.

(** ** Frame of undo and redo *)

(** C10.  [undo] and [redo] leave the selection, the clipboard and the
    current page as they are; so an undo can leave selected an id that no
    stroke carries any more. *)
Theorem undo_redo_frame (s : CanvasStore) :
  (selectedStrokeId (undo s).2 = selectedStrokeId s
   ∧ selectedStrokeIds (undo s).2 = selectedStrokeIds s
   ∧ clipboard (undo s).2 = clipboard s
   ∧ currentPageId (undo s).2 = currentPageId s)
  ∧ (selectedStrokeId (redo s).2 = selectedStrokeId s
     ∧ selectedStrokeIds (redo s).2 = selectedStrokeIds s
     ∧ clipboard (redo s).2 = clipboard s
     ∧ currentPageId (redo s).2 = currentPageId s)
  ∧ (∃ t i, (undo t).1 = true
            ∧ i ∈ selectedStrokeIds (undo t).2
            ∧ selectedStrokeId (undo t).2 = Some i
            ∧ ∀ st, st ∈ strokes (undo t).2 → Stroke.id st ≠ i).
Proof.
  split_and!.
  1-4: unfold undo; by destruct (last (undoStack s)).
  1-4: unfold redo; by destruct (last (redoStack s)).
  exists picked, (freshId (tick 0)). split_and!.
  - reflexivity.
  - change (selectedStrokeIds (undo picked).2) with [freshId (tick 0)]. left.
  - reflexivity.
  - intros st Hin. change (strokes (undo picked).2) with (@nil Stroke.t) in Hin.
    by apply elem_of_nil in Hin.
Qed.

(** ** Hit testing *)





Lemma scanDown_app (point : Point.t) (radius : float) (l k : list Stroke.t) (n : nat) :
  n ≤ length l →
  scanDown point radius (l ++ k) n = scanDown point radius l n.
Proof.
  induction n as [|n IH]; intros Hn; [done|]. simpl.
  rewrite lookup_app_l by lia. rewrite IH by lia. done.
Qed.

Lemma scanDown_snoc (point : Point.t) (radius : float) (l : list Stroke.t) (s : Stroke.t) :
  scanDown point radius (l ++ [s]) (length (l ++ [s]))
  = if hitsStroke point radius s then Some (Stroke.id s)
    else scanDown point radius l (length l).
Proof.
  rewrite length_app. simpl. rewrite Nat.add_1_r. simpl.
  rewrite list_lookup_middle by done.
  by rewrite scanDown_app.
Qed.



Lemma scanDown_some (point : Point.t) (radius : float) (l : list Stroke.t) (i : string) :
  scanDown point radius l (length l) = Some i →
  ∃ pre b post, l = pre ++ b :: post ∧ Stroke.id b = i
    ∧ hitsStroke point radius b = true
    ∧ ∀ s, s ∈ post → hitsStroke point radius s = false.
Proof.
  induction l as [|s l IH] using rev_ind; [done|].
  rewrite scanDown_snoc. destruct (hitsStroke point radius s) eqn:Hs.
  - intros [= <-]. exists l, s, []. split_and!; try done.
    intros s' Hs'. by apply elem_of_nil in Hs'.
  - intros H. destruct (IH H) as (pre & b & post & -> & Hid & Hb & Hpost).
    exists pre, b, (post ++ [s]). split_and!; try done.
    + by rewrite <- app_assoc.
    + intros s' [Hin|Hin]%elem_of_app; [by apply Hpost|].
      by apply list_elem_of_singleton in Hin as ->.
Qed.





(** ** Rubber-band selection *)

Lemma freehand_no_bounds (s : Stroke.t) :
  isFreehand s = true → getStrokeBounds (Some s) = None.
Proof.
  unfold isFreehand. intros [H|H]%orb_true_iff; apply bool_decide_eq_true in H;
    unfold getStrokeBounds; rewrite H; by destruct (Stroke.points s).
Qed.

Lemma existsb_elem_of {A} (f : A → bool) (l : list A) :
  existsb f l = true ↔ ∃ a, a ∈ l ∧ f a = true.
Proof. rewrite existsb_exists. by setoid_rewrite list_elem_of_In. Qed.




Lemma collectInRect_filter (rect : Bounds.t) (l : list Stroke.t) (result : list string) :
  collectInRect rect l result
  = result ++ (Stroke.id <$> filter (λ s, isInside rect s = true) l).
Proof.
  revert result. induction l as [|s l IH]; intros result; simpl.
  - by rewrite app_nil_r.
  - rewrite IH. destruct (isInside rect s) eqn:Hs.
    + rewrite filter_cons_True by done. by rewrite <- app_assoc.
    + rewrite filter_cons_False by (by rewrite Hs). done.
Qed.




(** ** Page prefetch *)

Module PrefetchFacts.
Import Prefetch.

Lemma has_false (d : Deps) (p : Z) :
  has d p = false ↔ renderedPages d !! p = None.
Proof.
  unfold has. rewrite bool_decide_eq_false, <- eq_None_not_Some. done.
Qed.

Lemma wanted_single (d : Deps) (p : Z) :
  filter (λ p, renderedPages d !! p = None) [p]
  = if negb (has d p) then [p] else [].
Proof.
  destruct (has d p) eqn:E; simpl.
  - rewrite filter_cons_False; [done|]. intros H. apply has_false in H. congruence.
  - rewrite filter_cons_True; [done|]. by apply has_false.
Qed.

Lemma rebuild_queue (d : Deps) (r : Refs) :
  pdfQueueRef (rebuild d r)
  = filter (λ p, renderedPages d !! p = None)
           (considered (Z.of_nat (length (pagesMeta d))) (currentPage d)).
Proof.
  unfold rebuild, considered. cbn [pdfQueueRef].
  rewrite !filter_app, wanted_single.
  destruct (bool_decide (1 < currentPage d)%Z);
    destruct (bool_decide (currentPage d < Z.of_nat (length (pagesMeta d)))%Z);
    cbn [andb]; rewrite ?wanted_single, ?filter_nil;
    destruct (has d (currentPage d)); destruct (has d (Js.subNum (currentPage d) 1));
    destruct (has d (Js.addNum (currentPage d) 1)); reflexivity.
Qed.

Lemma safe_neighbours (n : Z) :
  Js.isSafeInteger n → Js.subNum n 1 = (n - 1)%Z ∧ Js.addNum n 1 = (n + 1)%Z.
Proof.
  unfold Js.isSafeInteger, Js.subNum, Js.addNum. intros H.
  split; apply JsFacts.roundNum_small; lia.
Qed.

Lemma considered_safe (total n : Z) :
  Js.isSafeInteger n → considered total n = neighbours total n.
Proof.
  intros [H1 H2]%safe_neighbours. unfold considered, neighbours.
  by rewrite H1, H2.
Qed.

(** An uncancelled run starts the load of every queued page, in order. *)
Lemma drain_queue (fuel : nat) (queue : list Z) :
  length queue ≤ fuel →
  drain fuel (mkRefs false queue) = (queue, mkRefs false []).
Proof.
  revert fuel. induction queue as [|p rest IH]; intros fuel Hfuel.
  - by destruct fuel.
  - destruct fuel as [|fuel]; [simpl in Hfuel; lia|].
    simpl. unfold processQueue, resume. simpl.
    destruct rest as [|q rest']; [done|].
    simpl. simpl in Hfuel.
    specialize (IH fuel ltac:(simpl; lia)).
    simpl in IH. by rewrite IH.
Qed.

(** The guard of the effect, spelled out. *)
Lemma runs_guard (d : Deps) :
  runs d = true ↔
    (∃ path, pdfPath d = Some path ∧ path ≠ "")
    ∧ ∃ meta, meta ∈ pagesMeta d ∧ pageNumber meta = currentPage d.
Proof.
  unfold runs, currentPageMeta. rewrite andb_true_iff, bool_decide_eq_true.
  split.
  - intros [Hp Hm]. split.
    + destruct (pdfPath d) as [path|]; [|done]. exists path. split; [done|].
      intros ->. done.
    + destruct Hm as [meta Hm]. apply head_Some_elem_of in Hm.
      apply list_elem_of_filter in Hm as [Hn Hin]. by exists meta.
  - intros [(path & -> & Hne) (meta & Hin & Hn)]. split.
    + unfold Js.truthy. destruct (String.eqb_spec path ""); done.
    + destruct (filter (λ p, pageNumber p = currentPage d) (pagesMeta d))
        as [|m l] eqn:E; [|by eexists].
      assert (Hm : meta ∈ filter (λ p, pageNumber p = currentPage d) (pagesMeta d))
        by (by apply list_elem_of_filter).
      rewrite E in Hm. by apply elem_of_nil in Hm.
Qed.

Lemma call_oneAtATime (owner : nat) (s : Sched) (r : Refs) :
  pdfLoadingRef r = pdfLoadingRef (refs s) →
  oneAtATime s → oneAtATime (call owner s r).
Proof.
  unfold oneAtATime, call, processQueue. intros Hr Hs.
  destruct (pdfLoadingRef r) eqn:Hl; simpl.
  { rewrite Hl. by rewrite <- Hr in Hs. }
  rewrite <- Hr in Hs.
  destruct (pdfQueueRef r) as [|p q] eqn:Hq; simpl.
  { rewrite Hl. done. }
  destruct (bool_decide (owner ≠ epoch s)); simpl.
  - by rewrite Hl.
  - by rewrite Hs.
Qed.

Lemma step_oneAtATime (s s' : Sched) :
  oneAtATime s → step s s' → oneAtATime s'.
Proof.
  intros Hs Hstep. destruct Hstep as [d s|k owner pageNum s Hk|k owner s Hk].
  - destruct (runs d); [|done]. by apply call_oneAtATime.
  - unfold oneAtATime in *. simpl.
    destruct (pdfLoadingRef (refs s)).
    + destruct (awaiting s) as [|a [|b l]]; try done.
      destruct k; [done|]. by destruct k.
    + by rewrite Hs in Hk.
  - by apply call_oneAtATime.
Qed.

Lemma reachable_oneAtATime (s : Sched) : reachable s → oneAtATime s.
Proof.
  induction 1 as [|s s' _ IH Hstep]; [done|].
  by apply (step_oneAtATime s).
Qed.

(** What the one-at-a-time discipline does not give: a run of the
    effect that finds the load of an earlier, now cancelled, run under
    way starts nothing, and the cancelled run schedules nothing when its
    load ends; the rebuilt queue then waits for the next run of the
    effect. *)
Lemma queue_left_pending :
  ∃ s, reachable s
       ∧ pdfQueueRef (refs s) = [3%Z; 2%Z]
       ∧ pdfLoadingRef (refs s) = false
       ∧ awaiting s = [] ∧ timers s = [].
Proof.
  eexists. split.
  - eapply reachable_step.
    { eapply reachable_step.
      { eapply reachable_step; [apply reachable_initial|].
        apply (step_navigate threePages). }
      apply (step_navigate movedOn). }
    apply (step_loaded 0 1 2). reflexivity.
  - vm_compute. done.
Qed.

End PrefetchFacts.

(** C9 (as amended).  The effect passes its guard when a document is
    open and page N has a metadata entry.  It then rebuilds the queue
    from nothing as the list [N; N - 1; N + 1] without the pages already
    in [renderedPages], N - 1 being listed only when N > 1 and N + 1 only
    when N is below the page count; what was pending before is dropped.
    N - 1 and N + 1 are binary64 results: the neighbouring integers for
    every N below 2^53 in magnitude.  When the guard fails, the effect
    returns at once and the queue stays as it was.  The entries are
    loaded one at a time: the effect starts loading the first entry
    unless a load is still under way; in every state the scheduler can
    reach at most one load is under way; and a run that starts with no
    load under way and is not cancelled starts the load of every entry,
    in queue order, and leaves the queue empty. *)
Theorem prefetch_queue (d : Prefetch.Deps) (r : Prefetch.Refs) :
  let n := Prefetch.currentPage d in
  let total := Z.of_nat (length (Prefetch.pagesMeta d)) in
  let wanted :=
    filter (λ p, Prefetch.renderedPages d !! p = None)
      ([n] ++ (if bool_decide (1 < n)%Z then [Js.subNum n 1] else [])
           ++ (if bool_decide (n < total)%Z then [Js.addNum n 1] else [])) in
  (Prefetch.runs d = true ↔
     (∃ path, Prefetch.pdfPath d = Some path ∧ path ≠ "")
     ∧ ∃ meta, meta ∈ Prefetch.pagesMeta d ∧ Prefetch.pageNumber meta = n)
  ∧ ((Z.abs n < 2 ^ 53)%Z →
     Js.subNum n 1 = (n - 1)%Z ∧ Js.addNum n 1 = (n + 1)%Z)
  ∧ (Prefetch.runs d = true →
     Prefetch.pdfQueueRef (Prefetch.rebuild d r) = wanted
     ∧ Prefetch.effect d r
       = (if Prefetch.pdfLoadingRef r
          then (Prefetch.mkRefs true wanted, None)
          else match wanted with
               | [] => (Prefetch.mkRefs false [], None)
               | first :: rest => (Prefetch.mkRefs true rest, Some first)
               end)
     ∧ (Prefetch.pdfLoadingRef r = false →
        drain (length wanted) (Prefetch.rebuild d r)
        = (wanted, Prefetch.mkRefs false [])))
  ∧ (Prefetch.runs d = false → Prefetch.effect d r = (r, None))
  ∧ (∀ s, Prefetch.reachable s →
          length (Prefetch.awaiting s) ≤ 1
          ∧ (Prefetch.pdfLoadingRef (Prefetch.refs s) = true
             ↔ length (Prefetch.awaiting s) = 1)).
Proof.
  intros n total wanted.
  assert (Hq : Prefetch.pdfQueueRef (Prefetch.rebuild d r) = wanted)
    by apply PrefetchFacts.rebuild_queue.
  split_and!.
  - apply PrefetchFacts.runs_guard.
  - apply PrefetchFacts.safe_neighbours.
  - intros Hruns. split_and!; [done| |].
    + unfold Prefetch.effect. rewrite Hruns. unfold Prefetch.processQueue.
      rewrite Hq. change (Prefetch.pdfLoadingRef (Prefetch.rebuild d r))
        with (Prefetch.pdfLoadingRef r).
      destruct (Prefetch.pdfLoadingRef r) eqn:Hl; simpl.
      * unfold Prefetch.rebuild in *. simpl in *. by rewrite Hl, Hq.
      * destruct wanted as [|first rest] eqn:Hw; simpl.
        -- unfold Prefetch.rebuild in *. simpl in *. by rewrite Hl, Hq.
        -- done.
    + intros Hl.
      replace (Prefetch.rebuild d r) with (Prefetch.mkRefs false wanted).
      * by apply PrefetchFacts.drain_queue.
      * rewrite <- Hq. unfold Prefetch.rebuild. simpl. by rewrite Hl.
  - intros Hruns. unfold Prefetch.effect. by rewrite Hruns.
  - intros s Hs. apply PrefetchFacts.reachable_oneAtATime in Hs.
    unfold Prefetch.oneAtATime in Hs.
    destruct (Prefetch.pdfLoadingRef (Prefetch.refs s)).
    + rewrite Hs. split; [lia|done].
    + rewrite Hs. simpl. split; [lia|]. split; [done | lia].
Qed.

(** A three-page document open at page 2 with page 3 already rendered:
    whatever was queued before, pages 2 and 1 are requested, page 2
    first, and an undisturbed run loads page 2 and then page 1. *)
Lemma prefetch_queue_witness :
  Prefetch.pdfQueueRef (Prefetch.rebuild threePages (Prefetch.mkRefs false [7%Z]))
  = [2%Z; 1%Z]
  ∧ Prefetch.effect threePages (Prefetch.mkRefs false [7%Z])
    = (Prefetch.mkRefs true [1%Z], Some 2%Z)
  ∧ drain 2 (Prefetch.rebuild threePages (Prefetch.mkRefs false [7%Z]))
    = ([2%Z; 1%Z], Prefetch.mkRefs false []).
Proof.
  destruct (prefetch_queue threePages (Prefetch.mkRefs false [7%Z]))
    as (_ & _ & H & _).
  destruct (H eq_refl) as (H1 & H2 & H3).
  split_and!; [rewrite H1; reflexivity | rewrite H2; reflexivity |].
  exact (H3 eq_refl).
Defined.

(** C9 as stated fails at the guard: after a blank fourth page is added
    to a three-page document and becomes the current page, page 4 has no
    metadata entry; the effect returns before it touches the queue, and
    the entry pending from before stays, where the claim has the queue
    rebuilt as [4; 3]. *)
Lemma prefetch_queue_kept_at_guard :
  Prefetch.runs blankPage = false
  ∧ Prefetch.pdfQueueRef (Prefetch.effect blankPage (Prefetch.mkRefs false [7%Z])).1
    = [7%Z]
  ∧ filter (λ p, Prefetch.renderedPages blankPage !! p = None)
           (Prefetch.neighbours 3 (Prefetch.currentPage blankPage))
    = [4%Z; 3%Z].
Proof. vm_compute. done. Qed.

(** * Further properties of the canvas store *)

Lemma map_is_fmap {A B} (f : A → B) (l : list A) : map f l = f <$> l.
Proof. induction l as [|a l IH]; [done|]. simpl. by rewrite IH. Qed.

Lemma undo_top (t : CanvasStore) (U : list (list Stroke.t)) (P : list Stroke.t) :
  undoStack t = U ++ [P] →
  undo t = (true, mkStore P U (redoStack t ++ [strokes t]) (currentPageId t)
                    (selectedStrokeId t) (selectedStrokeIds t) (clipboard t)).
Proof. destruct t as [S U' R c i ids cb]. simpl. intros ->. apply undo_snoc. Qed.

Lemma redo_top (t : CanvasStore) (R : list (list Stroke.t)) (N : list Stroke.t) :
  redoStack t = R ++ [N] →
  redo t = (true, mkStore N (undoStack t ++ [strokes t]) R (currentPageId t)
                    (selectedStrokeId t) (selectedStrokeIds t) (clipboard t)).
Proof. destruct t as [S U R' c i ids cb]. simpl. intros ->. apply redo_snoc. Qed.

Lemma undoTimes_add (a b : nat) (t : CanvasStore) :
  undoTimes (a + b) t = undoTimes a (undoTimes b t).
Proof. unfold undoTimes. apply Nat.iter_add. Qed.

(** X1.  Undoing every recorded edit of a sequence, however long, brings back
    the stroke list and the undo stack the sequence started from; the
    edits that stopped at their guard need no undo.  The undo stack grows
    by one entry per recorded edit, without bound. *)
Theorem undo_reverts_edits (ops : list Op) (s : CanvasStore) :
  let after := run ops s in
  let k := countRecorded ops s in
  strokes (undoTimes k after) = strokes s
  ∧ undoStack (undoTimes k after) = undoStack s
  ∧ length (undoStack after) = length (undoStack s) + k.
Proof.
  revert s. induction ops as [|o ops IH]; intros s; [simpl; split_and!; [done | done | lia]|].
  cbn zeta in *. simpl.
  destruct (IH (apply o s)) as (IHs & IHu & IHl).
  destruct (records o s) eqn:Hg.
  - destruct (records_true o s Hg) as [Hu _].
    change (undoTimes (1 + countRecorded ops (apply o s)) (run ops (apply o s)))
      with (undo (undoTimes (countRecorded ops (apply o s)) (run ops (apply o s)))).2.
    set (t := undoTimes (countRecorded ops (apply o s)) (run ops (apply o s))) in *.
    assert (Ht : undoStack t = undoStack s ++ [strokes s]) by (by rewrite IHu).
    rewrite (undo_top t _ _ Ht). simpl.
    split_and!; [done | done |]. rewrite IHl, Hu, length_app. simpl. lia.
  - rewrite (records_false o s Hg) in *. simpl. by split_and!.
Qed.

(** X2.  [undo] and [redo] undo each other: after an undo that found an
    entry, redo gives back the very state undone, and the other way
    round. *)
Theorem undo_redo_round_trip (s : CanvasStore) :
  (undoStack s ≠ [] → redo (undo s).2 = (true, s))
  ∧ (redoStack s ≠ [] → undo (redo s).2 = (true, s)).
Proof.
  split.
  - apply redo_after_undo.
  - destruct s as [S U R c i ids cb]. simpl. intros HR.
    destruct (snoc_cases R) as [->|(R' & N & ->)]; [done|].
    rewrite redo_snoc. simpl. apply undo_snoc.
Qed.

Lemma undo_redo_round_trip_witness :
  redo (undo drawn).2 = (true, drawn) ∧ undo (redo undone).2 = (true, undone).
Proof.
  destruct (undo_redo_round_trip drawn) as [H1 _].
  destruct (undo_redo_round_trip undone) as [_ H2].
  split; [apply H1 | apply H2]; vm_compute; discriminate.
Defined.

(** X3.  [deleteStroke] removes every stroke that carries the id and keeps the
    others in their order; the id leaves the selection, the other
    selected ids stay, and the clipboard is not touched.  When the id was
    the primary selection, the primary selection becomes [null] even if
    other ids remain selected. *)
Theorem deleteStroke_removes (i : string) (s : CanvasStore) :
  let s' := deleteStroke i s in
  (∀ st, st ∈ strokes s' ↔ st ∈ strokes s ∧ Stroke.id st ≠ i)
  ∧ strokes s' `sublist_of` strokes s
  ∧ (∀ j, j ∈ selectedStrokeIds s' ↔ j ∈ selectedStrokeIds s ∧ j ≠ i)
  ∧ selectedStrokeId s' ≠ Some i
  ∧ (selectedStrokeId s = Some i → selectedStrokeId s' = None)
  ∧ (selectedStrokeId s ≠ Some i → selectedStrokeId s' = selectedStrokeId s)
  ∧ clipboard s' = clipboard s.
Proof.
  simpl. split_and!.
  - intros st. rewrite list_elem_of_filter. tauto.
  - apply sublist_filter.
  - intros j. rewrite list_elem_of_filter. tauto.
  - case_bool_decide; [done|]. done.
  - intros H. by rewrite bool_decide_eq_true_2.
  - intros H. by rewrite bool_decide_eq_false_2.
  - done.
Qed.

(** A deletion of the primary stroke of a two-stroke selection: the other
    id stays selected, with no primary selection. *)
Lemma deleteStroke_removes_witness :
  selectedStrokeIds (deleteStroke "stroke-2-b" twoSelected) = ["stroke-1-a"]
  ∧ selectedStrokeId (deleteStroke "stroke-2-b" twoSelected) = None.
Proof.
  destruct (deleteStroke_removes "stroke-2-b" twoSelected) as (_ & _ & _ & _ & H & _).
  split; [reflexivity | by apply H].
Defined.

(** X4.  With something selected, [deleteSelectedStrokes] removes exactly the
    strokes whose id is selected, keeps the others in their order,
    empties the selection and leaves the clipboard alone. *)
Theorem deleteSelectedStrokes_removes (s : CanvasStore) :
  selectedStrokeIds s ≠ [] →
  let s' := deleteSelectedStrokes s in
  (∀ st, st ∈ strokes s' ↔ st ∈ strokes s ∧ Stroke.id st ∉ selectedStrokeIds s)
  ∧ strokes s' `sublist_of` strokes s
  ∧ selectedStrokeIds s' = []
  ∧ selectedStrokeId s' = None
  ∧ clipboard s' = clipboard s
  ∧ strokes (undo s').2 = strokes s.
Proof.
  intros Hsel. unfold deleteSelectedStrokes.
  rewrite bool_decide_eq_false_2 by (by rewrite length_zero_nil).
  cbn zeta. split_and!; try done.
  - intros st. simpl. rewrite list_elem_of_filter. tauto.
  - apply sublist_filter.
  - erewrite undo_top; [|reflexivity]. done.
Qed.

Lemma deleteSelectedStrokes_removes_witness :
  strokes (deleteSelectedStrokes picked) = []
  ∧ strokes (undo (deleteSelectedStrokes picked)).2 = strokes picked.
Proof.
  assert (H : selectedStrokeIds picked ≠ []) by (vm_compute; discriminate).
  destruct (deleteSelectedStrokes_removes picked H) as (_ & _ & _ & _ & _ & H6).
  split; [reflexivity | exact H6].
Defined.

(** X5.  [clearPage] empties the page and no other: the strokes of every other
    page stay as they are, in order.  Selection and clipboard are not
    touched, and one undo brings the strokes back. *)
Theorem clearPage_empties_page (page : Z) (s : CanvasStore) :
  let s' := clearPage page s in
  getPageStrokes page s' = []
  ∧ (∀ q, q ≠ page → getPageStrokes q s' = getPageStrokes q s)
  ∧ selectedStrokeIds s' = selectedStrokeIds s
  ∧ selectedStrokeId s' = selectedStrokeId s
  ∧ clipboard s' = clipboard s
  ∧ undo s' = (true, mkStore (strokes s) (undoStack s) [strokes s']
                       (currentPageId s) (selectedStrokeId s)
                       (selectedStrokeIds s) (clipboard s)).
Proof.
  cbn zeta. split_and!; try done.
  - unfold getPageStrokes. simpl. rewrite list_filter_filter.
    induction (strokes s) as [|st l IH]; [done|].
    rewrite filter_cons_False by tauto. done.
  - intros q Hq. unfold getPageStrokes. simpl.
    apply list_filter_filter_l. intros st ->. done.
  - erewrite undo_top; [|reflexivity]. done.
Qed.

(** X6.  Cutting is copying and then deleting the selection; copying changes
    nothing but the clipboard, which afterwards holds the selected
    strokes in canvas order, and with nothing selected it keeps the old
    clipboard. *)
Theorem cut_is_copy_then_delete (s : CanvasStore) :
  cutSelected s = deleteSelectedStrokes (copySelected s)
  ∧ strokes (copySelected s) = strokes s
  ∧ undoStack (copySelected s) = undoStack s
  ∧ redoStack (copySelected s) = redoStack s
  ∧ selectedStrokeIds (copySelected s) = selectedStrokeIds s
  ∧ selectedStrokeId (copySelected s) = selectedStrokeId s
  ∧ (if bool_decide (selectedStrokeIds s = [])
     then clipboard (copySelected s) = clipboard s
     else clipboard (copySelected s) `sublist_of` strokes s
          ∧ ∀ st, st ∈ clipboard (copySelected s)
                  ↔ st ∈ strokes s ∧ Stroke.id st ∈ selectedStrokeIds s).
Proof.
  unfold cutSelected, copySelected, deleteSelectedStrokes.
  destruct (selectedStrokeIds s) as [|j ids] eqn:E; simpl.
  - rewrite E. simpl. by split_and!.
  - rewrite E. simpl. split_and!; try done.
    + apply sublist_filter.
    + intros st. unfold selectedOf. rewrite list_elem_of_filter, E. tauto.
Qed.

Lemma selectedOf_nonempty (s : CanvasStore) :
  selectedOf s ≠ [] → selectedStrokeIds s ≠ [].
Proof.
  intros H E. apply H. unfold selectedOf. rewrite E.
  induction (strokes s) as [|st l IH]; [done|].
  rewrite filter_cons_False; [done|]. apply not_elem_of_nil.
Qed.

(** X7.  [duplicateSelected] is copy-then-paste with the default offset on
    everything but the clipboard, which it leaves alone, as long as the
    selection names a stroke of the canvas.  When something is selected
    but no selected id names a stroke, it adds nothing and still records
    a history entry and empties the selection. *)
Theorem duplicate_is_copy_paste (page : Z) (gen : nat → Entropy.t) (s : CanvasStore) :
  selectedStrokeIds s ≠ [] →
  let d := duplicateSelected page gen s in
  let p := paste page None gen (copySelected s) in
  clipboard d = clipboard s
  ∧ (if bool_decide (selectedOf s = [])
     then strokes d = strokes s
          ∧ undoStack d = undoStack s ++ [strokes s]
          ∧ redoStack d = []
          ∧ selectedStrokeIds d = [] ∧ selectedStrokeId d = None
          ∧ p = copySelected s
     else strokes d = strokes p
          ∧ undoStack d = undoStack p
          ∧ redoStack d = redoStack p
          ∧ selectedStrokeIds d = selectedStrokeIds p
          ∧ selectedStrokeId d = selectedStrokeId p
          ∧ clipboard p = selectedOf s).
Proof.
  intros Hsel d p. subst d p. unfold duplicateSelected, copySelected, paste.
  rewrite !bool_decide_eq_false_2 by (by rewrite length_zero_nil).
  cbn [clipboard set p_clipboard default]. split; [done|].
  case_bool_decide as Hof.
  - rewrite Hof. simpl. rewrite app_nil_r. by split_and!.
  - rewrite bool_decide_eq_false_2 by (by rewrite length_zero_nil).
    simpl. by split_and!.
Qed.

(** The stroke drawn at (10, 10) is selected and duplicated: the copy is
    the one copy-and-paste would make, and the clipboard stays empty. *)
Lemma duplicate_is_copy_paste_witness :
  strokes (duplicateSelected 1 laterTick picked)
  = strokes (paste 1 None laterTick (copySelected picked))
  ∧ clipboard (duplicateSelected 1 laterTick picked) = [].
Proof.
  assert (H : selectedStrokeIds picked ≠ []) by (vm_compute; discriminate).
  destruct (duplicate_is_copy_paste 1 laterTick picked H) as [Hc Hrest].
  rewrite bool_decide_eq_false_2 in Hrest by (vm_compute; discriminate).
  destruct Hrest as (Hs & _). split; [exact Hs | exact Hc].
Defined.

(** X8.  Pasting does not consume the clipboard, and every paste starts from
    the clipboard's own points: two pastes with the same offset put their
    copies at the same place, one stack on the other. *)
Theorem paste_repeatable (page : Z) (offset : option Point.t)
    (gen1 gen2 : nat → Entropy.t) (s : CanvasStore) :
  let once := paste page offset gen1 s in
  let twice := paste page offset gen2 once in
  clipboard once = clipboard s
  ∧ ∃ first second,
      strokes once = strokes s ++ first
      ∧ strokes twice = strokes s ++ first ++ second
      ∧ length first = length (clipboard s)
      ∧ length second = length (clipboard s)
      ∧ map Stroke.points second = map Stroke.points first
      ∧ map Stroke.tool second = map Stroke.tool first.
Proof.
  intros once twice. subst once twice. unfold paste.
  destruct (clipboard s) as [|c cs] eqn:Ec.
  - simpl. rewrite Ec. simpl. split; [done|].
    exists [], []. rewrite !app_nil_r. by split_and!.
  - rewrite bool_decide_eq_false_2 by done.
    cbn [clipboard set p_clipboard default strokes p_strokes].
    rewrite Ec. rewrite bool_decide_eq_false_2 by done.
    cbn [strokes set p_strokes default]. split; [done|].
    exists (imap (λ k c0, copyTo page (default defaultOffset offset) (gen1 k) c0) (c :: cs)),
           (imap (λ k c0, copyTo page (default defaultOffset offset) (gen2 k) c0) (c :: cs)).
    unfold id. split_and!; [done | by rewrite <- (assoc_L (++)) | apply length_imap
                | apply length_imap | |].
    + rewrite !map_is_fmap, !fmap_imap. apply imap_ext. done.
    + rewrite !map_is_fmap, !fmap_imap. apply imap_ext. done.
Qed.

(** ** Updating a stroke *)

Lemma same_id_same_stroke (l : list Stroke.t) (a b : Stroke.t) :
  uniqueIds l → a ∈ l → b ∈ l → Stroke.id a = Stroke.id b → a = b.
Proof.
  unfold uniqueIds. rewrite map_is_fmap.
  induction l as [|x l IH]; intros Hnd Ha Hb Hid; [by apply elem_of_nil in Ha|].
  rewrite fmap_cons in Hnd. apply NoDup_cons in Hnd as [Hx Hnd].
  apply elem_of_cons in Ha as [->|Ha]; apply elem_of_cons in Hb as [->|Hb].
  - done.
  - destruct Hx. rewrite Hid. apply list_elem_of_fmap. eauto.
  - destruct Hx. rewrite <- Hid. apply list_elem_of_fmap. eauto.
  - by apply IH.
Qed.



(** ** Unique ids *)

Lemma uniqueIds_sublist (l k : list Stroke.t) :
  l `sublist_of` k → uniqueIds k → uniqueIds l.
Proof.
  unfold uniqueIds. rewrite !map_is_fmap. intros Hs Hk.
  eapply sublist_NoDup; [exact Hk|]. by apply fmap_sublist.
Qed.

Lemma uniqueIds_update (i : string) (updates : Updates.t) (l : list Stroke.t) :
  uniqueIds l →
  uniqueIds (map (λ x, if bool_decide (Stroke.id x = i)
                       then merge x updates else x) l).
Proof.
  unfold uniqueIds. intros H.
  replace (map Stroke.id (map (λ x, if bool_decide (Stroke.id x = i)
                                    then merge x updates else x) l))
    with (map Stroke.id l); [done|].
  clear H. induction l as [|x l IH]; [done|]. simpl. rewrite <- IH.
  by case_bool_decide.
Qed.

Lemma uniqueIds_append (l new : list Stroke.t) :
  uniqueIds l → NoDup (map Stroke.id new) →
  (∀ i, i ∈ map Stroke.id new → i ∉ map Stroke.id l) →
  uniqueIds (l ++ new).
Proof.
  unfold uniqueIds. intros Hl Hn Hd. rewrite map_app.
  apply NoDup_app. split_and!; [done | | done].
  intros x Hx Hx'. by apply (Hd x).
Qed.

Lemma copies_ids (page : Z) (offset : Point.t) (gen : nat → Entropy.t)
    (l : list Stroke.t) :
  map Stroke.id (imap (λ k c, copyTo page offset (gen k) c) l)
  = imap (λ k _, freshId (gen k)) l.
Proof. rewrite map_is_fmap, fmap_imap. by apply imap_ext. Qed.

Lemma wellFormed_push (s : CanvasStore) (l : list Stroke.t) c i ids cb :
  wellFormed s → uniqueIds l →
  wellFormed (set (mkPatch (Some l) (Some (undoStack s ++ [strokes s])) (Some [])
                           c i ids cb) s).
Proof.
  intros (Hs & Hu & Hr) Hl. unfold wellFormed, set. simpl.
  split_and!; [done | | done].
  apply Forall_app. split; [done|]. by apply Forall_singleton.
Qed.

(** X10.  The store never makes two strokes share an id by itself: if all ids
    are different in the current stroke list and in every snapshot of
    the history, they still are after any operation whose newly
    generated ids are new, and after undo and redo. *)
Theorem unique_ids_preserved (s : CanvasStore) :
  wellFormed s →
  (∀ o, freshFor o s → wellFormed (apply o s))
  ∧ wellFormed (undo s).2
  ∧ wellFormed (redo s).2.
Proof.
  intros Hwf. split_and!.
  - intros o [Hnd Hfresh].
    destruct (records o s) eqn:Hg; [|by rewrite records_false].
    pose proof Hwf as (Hs & _ & _).
    destruct o; simpl in Hg |- *.
    + apply wellFormed_push; [done|].
      apply uniqueIds_append; [done | exact Hnd | exact Hfresh].
    + apply wellFormed_push; [done|]. by apply uniqueIds_update.
    + apply wellFormed_push; [done|].
      eapply uniqueIds_sublist; [apply sublist_filter | done].
    + unfold deleteSelectedStrokes. apply bool_decide_eq_true in Hg.
      rewrite bool_decide_eq_false_2 by (by rewrite length_zero_nil).
      apply wellFormed_push; [done|].
      eapply uniqueIds_sublist; [apply sublist_filter | done].
    + apply wellFormed_push; [done|].
      eapply uniqueIds_sublist; [apply sublist_filter | done].
    + unfold cutSelected. apply bool_decide_eq_true in Hg.
      rewrite bool_decide_eq_false_2 by (by rewrite length_zero_nil).
      apply wellFormed_push; [done|].
      eapply uniqueIds_sublist; [apply sublist_filter | done].
    + unfold paste. apply bool_decide_eq_true in Hg.
      rewrite bool_decide_eq_false_2 by (by rewrite length_zero_nil).
      apply wellFormed_push; [done|].
      apply uniqueIds_append; [done | |]; rewrite copies_ids; [exact Hnd | exact Hfresh].
    + unfold duplicateSelected. apply bool_decide_eq_true in Hg.
      rewrite bool_decide_eq_false_2 by (by rewrite length_zero_nil).
      apply wellFormed_push; [done|].
      apply uniqueIds_append; [done | |]; rewrite copies_ids; [exact Hnd | exact Hfresh].
  - destruct Hwf as (Hs & Hu & Hr).
    destruct (snoc_cases (undoStack s)) as [E|(U & P & E)].
    + by rewrite undo_nil.
    + rewrite (undo_top s U P E). rewrite E in Hu.
      apply Forall_app in Hu as [HU HP]. apply Forall_inv in HP.
      unfold wellFormed. simpl. split_and!; [done | done |].
      apply Forall_app. split; [done|]. by apply Forall_singleton.
  - destruct Hwf as (Hs & Hu & Hr).
    destruct (snoc_cases (redoStack s)) as [E|(R & N & E)].
    + by rewrite redo_nil.
    + rewrite (redo_top s R N E). rewrite E in Hr.
      apply Forall_app in Hr as [HR HN]. apply Forall_inv in HN.
      unfold wellFormed. simpl. split_and!; [done | | done].
      apply Forall_app. split; [done|]. by apply Forall_singleton.
Qed.

Lemma unique_ids_preserved_witness :
  wellFormed drawn ∧ wellFormed undone.
Proof.
  assert (H0 : wellFormed initialStore).
  { unfold wellFormed, uniqueIds. simpl. split_and!; constructor. }
  destruct (unique_ids_preserved initialStore H0) as (Hop & _).
  assert (Hd : wellFormed drawn).
  { apply (Hop (AddStroke (penAt 10 10) (tick 0))). split.
    - simpl. apply NoDup_singleton.
    - intros i _. simpl. apply not_elem_of_nil. }
  split; [exact Hd|].
  by destruct (unique_ids_preserved drawn Hd) as (_ & H & _).
Defined.

(** ** Looking up what was added *)

Lemma filter_none {A} (P : A → Prop) `{!∀ x, Decision (P x)} (l : list A) :
  (∀ x, x ∈ l → ¬ P x) → filter P l = [].
Proof.
  induction l as [|x l IH]; intros Hall; [done|].
  rewrite filter_cons_False by (apply Hall; left).
  apply IH. intros y Hy. apply Hall. by right.
Qed.

Lemma filter_all {A} (P : A → Prop) `{!∀ x, Decision (P x)} (l : list A) :
  (∀ x, x ∈ l → P x) → filter P l = l.
Proof.
  induction l as [|x l IH]; intros Hall; [done|].
  rewrite filter_cons_True by (apply Hall; left).
  f_equal. apply IH. intros y Hy. apply Hall. by right.
Qed.

Lemma filter_on {A} (P Q : A → Prop) `{!∀ x, Decision (P x)} `{!∀ x, Decision (Q x)}
    (l : list A) :
  (∀ x, x ∈ l → (P x ↔ Q x)) → filter P l = filter Q l.
Proof.
  induction l as [|x l IH]; intros Hall; [done|].
  assert (Hx : P x ↔ Q x) by (apply Hall; left).
  assert (IH' : filter P l = filter Q l)
    by (apply IH; intros y Hy; apply Hall; by right).
  destruct (decide (P x)) as [HP|HP].
  - rewrite !filter_cons_True by tauto. by rewrite IH'.
  - rewrite !filter_cons_False by tauto. done.
Qed.

(** X11.  [addStroke] puts the new stroke last, hence topmost, on its page and
    changes no other page and not the selection.  [getStrokeById] finds
    the new stroke under its id when the id is new; when the id is
    already taken it keeps returning the older stroke. *)
Theorem addStroke_lookup (strokeData : StrokeData.t) (e : Entropy.t) (s : CanvasStore) :
  let s' := addStroke strokeData e s in
  ∃ new,
    strokes s' = strokes s ++ [new]
    ∧ Stroke.id new = freshId e
    ∧ Stroke.pageId new = StrokeData.pageId strokeData
    ∧ Stroke.points new = StrokeData.points strokeData
    ∧ getPageStrokes (StrokeData.pageId strokeData) s'
      = getPageStrokes (StrokeData.pageId strokeData) s ++ [new]
    ∧ (∀ q, q ≠ StrokeData.pageId strokeData →
            getPageStrokes q s' = getPageStrokes q s)
    ∧ getStrokeById (freshId e) s'
      = (if bool_decide (freshId e ∈ map Stroke.id (strokes s))
         then getStrokeById (freshId e) s else Some new)
    ∧ (∀ j, j ≠ freshId e → getStrokeById j s' = getStrokeById j s)
    ∧ selectedStrokeIds s' = selectedStrokeIds s
    ∧ selectedStrokeId s' = selectedStrokeId s.
Proof.
  cbn zeta. eexists. split_and!; try reflexivity.
  - unfold getPageStrokes. simpl. rewrite filter_app.
    by rewrite filter_cons_True.
  - intros q Hq. unfold getPageStrokes. simpl. rewrite filter_app.
    rewrite filter_cons_False by (simpl; congruence).
    by rewrite app_nil_r.
  - unfold getStrokeById. simpl. rewrite filter_app.
    rewrite filter_cons_True by done. simpl.
    case_bool_decide as Hin.
    + rewrite map_is_fmap in Hin. apply list_elem_of_fmap in Hin as (x & Hx & Hin).
      apply list_elem_of_split in Hin as (pre & post & ->).
      rewrite !filter_app. rewrite (filter_cons_True _ x) by done.
      by destruct (filter (λ s0, Stroke.id s0 = freshId e) pre).
    + rewrite filter_none; [done|].
      intros x Hx Hid. apply Hin. rewrite map_is_fmap.
      apply list_elem_of_fmap. eauto.
  - intros j Hj. unfold getStrokeById. simpl. rewrite filter_app.
    rewrite filter_cons_False by (simpl; congruence).
    by rewrite app_nil_r.
Qed.

(** ** Select all, then delete *)

(** X12.  With unique ids, selecting all strokes of a page and deleting the
    selection leaves the stroke list [clearPage] would leave: the page is
    empty, the other pages are as they were.  On a page without strokes
    the two steps record nothing. *)
Theorem select_all_then_delete (page : Z) (s : CanvasStore) :
  uniqueIds (strokes s) →
  let s' := deleteSelectedStrokes (selectAll page s) in
  strokes s' = strokes (clearPage page s)
  ∧ getPageStrokes page s' = []
  ∧ selectedStrokeIds s' = []
  ∧ (if bool_decide (getPageStrokes page s = [])
     then undoStack s' = undoStack s ∧ redoStack s' = redoStack s
     else undoStack s' = undoStack s ++ [strokes s] ∧ redoStack s' = []).
Proof.
  intros Hu. cbn zeta.
  assert (Hstrokes : strokes (deleteSelectedStrokes (selectAll page s))
                     = strokes (clearPage page s)).
  { unfold deleteSelectedStrokes, selectAll, selectStrokes.
    cbn [selectedStrokeIds set p_selectedStrokeIds default].
    case_bool_decide as Hlen.
    - unfold id in Hlen. rewrite length_map in Hlen. apply length_zero_nil in Hlen.
      cbn [strokes set p_strokes default clearPage]. symmetry.
      apply filter_all. intros x Hx Hp.
      assert (Hin : x ∈ getPageStrokes page s)
        by (by apply list_elem_of_filter).
      rewrite Hlen in Hin. by apply elem_of_nil in Hin.
    - cbn [strokes set p_strokes default clearPage selectedStrokeIds
           p_selectedStrokeIds]. unfold id.
      apply filter_on. intros x Hx. split.
      + intros Hnot Hp. apply Hnot. rewrite map_is_fmap.
        apply list_elem_of_fmap. exists x. split; [done|].
        by apply list_elem_of_filter.
      + intros Hp Hin. rewrite map_is_fmap in Hin.
        apply list_elem_of_fmap in Hin as (y & Hid & [Hy Hyin]%list_elem_of_filter).
        assert (x = y) by (by apply (same_id_same_stroke (strokes s))).
        by subst y. }
  split_and!.
  - exact Hstrokes.
  - unfold getPageStrokes. rewrite Hstrokes. simpl.
    rewrite list_filter_filter. apply filter_none. tauto.
  - unfold deleteSelectedStrokes, selectAll, selectStrokes. simpl.
    by destruct (getPageStrokes page s).
  - unfold deleteSelectedStrokes, selectAll, selectStrokes. simpl.
    destruct (getPageStrokes page s); simpl; by split.
Qed.

Lemma select_all_then_delete_witness :
  strokes (deleteSelectedStrokes (selectAll 1 drawn)) = []
  ∧ undoStack (deleteSelectedStrokes (selectAll 1 drawn)) = [[]; strokes drawn].
Proof.
  assert (Hu : uniqueIds (strokes drawn)).
  { vm_compute. repeat constructor. intros H. by apply elem_of_nil in H. }
  destruct (select_all_then_delete 1 drawn Hu) as (H1 & _ & _ & H4).
  split; [rewrite H1; reflexivity|].
  rewrite bool_decide_eq_false_2 in H4 by (vm_compute; discriminate).
  destruct H4 as [H4 _]. rewrite H4. reflexivity.
Defined.

(** ** A selection without repeats *)

(** X13.  [addToSelection], [removeFromSelection] and [deleteStroke] keep the
    selection free of repeated ids.  Adding an id twice is adding it
    once; removing an id takes it out; adding a new id and removing it
    again gives back the selected ids as they were. *)
Theorem selection_stays_duplicate_free (i : string) (s : CanvasStore) :
  NoDup (selectedStrokeIds s) →
  NoDup (selectedStrokeIds (addToSelection i s))
  ∧ i ∈ selectedStrokeIds (addToSelection i s)
  ∧ addToSelection i (addToSelection i s) = addToSelection i s
  ∧ NoDup (selectedStrokeIds (removeFromSelection i s))
  ∧ (i ∉ selectedStrokeIds (removeFromSelection i s))
  ∧ NoDup (selectedStrokeIds (deleteStroke i s))
  ∧ (i ∉ selectedStrokeIds s →
     selectedStrokeIds (removeFromSelection i (addToSelection i s))
     = selectedStrokeIds s).
Proof.
  intros Hnd.
  assert (Hin : i ∈ selectedStrokeIds (addToSelection i s)).
  { unfold addToSelection. case_bool_decide; [done|]. simpl.
    apply elem_of_app. right. left. }
  split_and!.
  - unfold addToSelection. case_bool_decide as H; [done|]. simpl.
    apply NoDup_app. split_and!; [done | | apply NoDup_singleton].
    intros x Hx Hx'. apply list_elem_of_singleton in Hx' as ->. done.
  - exact Hin.
  - unfold addToSelection at 1. by rewrite bool_decide_eq_true_2.
  - simpl. by apply NoDup_filter.
  - simpl. rewrite list_elem_of_filter. tauto.
  - simpl. by apply NoDup_filter.
  - intros Hi. unfold addToSelection. rewrite bool_decide_eq_false_2 by done.
    simpl. rewrite filter_app, filter_cons_False, filter_nil, app_nil_r by tauto.
    apply filter_all. intros x Hx ->. done.
Qed.

Lemma selection_stays_duplicate_free_witness :
  NoDup (selectedStrokeIds twoSelected)
  ∧ selectedStrokeIds (removeFromSelection "stroke-2-b" twoSelected) = ["stroke-1-a"].
Proof.
  assert (H1 : NoDup (selectedStrokeIds (selectStroke (Some "stroke-1-a") initialStore)))
    by apply NoDup_singleton.
  destruct (selection_stays_duplicate_free "stroke-2-b" _ H1)
    as (Ha & _ & _ & _ & _ & _ & Hr).
  split; [exact Ha|].
  apply Hr. simpl. intros H. apply list_elem_of_singleton in H. discriminate H.
Defined.

(** * Further properties of the viewer's geometry *)

Lemma collectInRect_ids (rect : Bounds.t) (l : list Stroke.t) :
  collectInRect rect l [] = Stroke.id <$> filter (λ s, isInside rect s = true) l.
Proof. by rewrite collectInRect_filter. Qed.

(** X14.  Whatever the pointer queries return is on the current page:
    [findStrokeAtPoint], with or without the engine and whatever index
    the engine answers, returns [null] or the id of a stroke of the
    current page, and [findStrokesInRect] returns ids of strokes of the
    current page only, without repeats when the ids are unique.  With the
    engine, an index outside the page's strokes (such as the -1 of a miss)
    gives [null]. *)
Theorem pointer_queries_stay_on_page (v : Viewer) :
  let page := getPageStrokes (currentPage v) (canvas v) in
  (∀ point eraserMode i,
      findStrokeAtPoint v point eraserMode = Some i →
      ∃ st, st ∈ page ∧ Stroke.id st = i ∧ Stroke.pageId st = currentPage v)
  ∧ (∀ start stop i,
      i ∈ findStrokesInRect v start stop →
      ∃ st, st ∈ page ∧ Stroke.id st = i ∧ Stroke.pageId st = currentPage v)
  ∧ (uniqueIds (strokes (canvas v)) →
     ∀ start stop, NoDup (findStrokesInRect v start stop))
  ∧ (wasmReady v = true →
     ∀ (point : Point.t) (eraserMode : bool),
       let idx := engineHitTest v (Point.x point * scale v)%float
                    (Point.y point * scale v)%float
                    (if eraserMode then 15 else 10)%float in
       findStrokeAtPoint v point eraserMode = None
       ↔ (idx < 0 ∨ Z.of_nat (length page) ≤ idx)%Z).
Proof.
  intros page.
  assert (Hon : ∀ st, st ∈ page → Stroke.pageId st = currentPage v).
  { intros st Hst. by apply list_elem_of_filter in Hst as [? _]. }
  split_and!.
  - intros point eraserMode i Hi. unfold findStrokeAtPoint in Hi.
    fold page in Hi. destruct (wasmReady v).
    + case_match; [|done].
      apply fmap_Some in Hi as (st & E & ->).
      apply list_elem_of_lookup_2 in E.
      exists st. split_and!; [done | done | by apply Hon].
    + apply scanDown_some in Hi as (pre & b & post & E & Hid & _).
      exists b. assert (b ∈ page) by (rewrite E; apply elem_of_app; right; left).
      split_and!; [done | done | by apply Hon].
  - intros start stop i Hi. unfold findStrokesInRect in Hi. fold page in Hi.
    rewrite collectInRect_ids in Hi.
    apply list_elem_of_fmap in Hi as (st & -> & [_ Hst]%list_elem_of_filter).
    exists st. split_and!; [done | done | by apply Hon].
  - intros Hu start stop. unfold findStrokesInRect. fold page.
    rewrite collectInRect_ids.
    assert (Hsub : filter (λ s, isInside (rectOf start stop) s = true) page
                   `sublist_of` strokes (canvas v)).
    { etrans; apply sublist_filter. }
    pose proof (uniqueIds_sublist _ _ Hsub Hu) as Hnd.
    unfold uniqueIds in Hnd. by rewrite map_is_fmap in Hnd.
  - intros Hw point eraserMode idx. unfold findStrokeAtPoint. fold page.
    rewrite Hw. fold idx.
    destruct (bool_decide (0 ≤ idx)%Z) eqn:E1;
      destruct (bool_decide (idx < Z.of_nat (length page))%Z) eqn:E2; simpl;
      try apply bool_decide_eq_true in E1; try apply bool_decide_eq_true in E2;
      try apply bool_decide_eq_false in E1; try apply bool_decide_eq_false in E2.
    + destruct (page !! Z.to_nat idx) as [st|] eqn:E.
      * simpl. split; [done | lia].
      * apply lookup_ge_None in E. lia.
    + split; [lia | done].
    + split; [lia | done].
    + split; [lia | done].
Qed.

(** ** Strokes without points *)

Lemma no_points_no_hit (st : Stroke.t) :
  Stroke.points st = [] →
  getStrokeBounds (Some st) = None
  ∧ (∀ point radius, hitsStroke point radius st = false)
  ∧ (∀ rect, isInside rect st = false).
Proof.
  intros E.
  assert (Hb : getStrokeBounds (Some st) = None)
    by (unfold getStrokeBounds; by rewrite E).
  split_and!; [done | |].
  - intros point radius. unfold hitsStroke. rewrite Hb, E.
    by destruct (isFreehand st).
  - intros rect. unfold isInside. rewrite Hb, E.
    by destruct (isFreehand st).
Qed.

(** X15.  A stroke that has no points has no bounding box and no resize
    handle; with unique ids, neither the hit test (without the engine)
    nor the rubber band ever returns its id. *)
Theorem stroke_without_points_unreachable (v : Viewer) (st : Stroke.t) :
  wasmReady v = false →
  uniqueIds (strokes (canvas v)) →
  st ∈ strokes (canvas v) →
  Stroke.points st = [] →
  (∀ point eraserMode, findStrokeAtPoint v point eraserMode ≠ Some (Stroke.id st))
  ∧ (∀ start stop, Stroke.id st ∉ findStrokesInRect v start stop)
  ∧ getStrokeBounds (Some st) = None
  ∧ (∀ point, getResizeCorner point (Some st) = None).
Proof.
  intros Hw Hu Hin E.
  destruct (no_points_no_hit st E) as (Hb & Hhit & Hins).
  assert (Hsame : ∀ b, b ∈ getPageStrokes (currentPage v) (canvas v) →
                       Stroke.id b = Stroke.id st → b = st).
  { intros b [_ Hb']%list_elem_of_filter Hid.
    by apply (same_id_same_stroke (strokes (canvas v))). }
  split_and!.
  - intros point eraserMode Hf. unfold findStrokeAtPoint in Hf. rewrite Hw in Hf.
    apply scanDown_some in Hf as (pre & b & post & Hl & Hid & Hbhit & _).
    assert (b = st).
    { apply Hsame; [|done]. rewrite Hl. apply elem_of_app. right. left. }
    subst b. by rewrite Hhit in Hbhit.
  - intros start stop Hi. unfold findStrokesInRect in Hi.
    rewrite collectInRect_ids in Hi.
    apply list_elem_of_fmap in Hi as (b & Hid & [Hbin Hbpage]%list_elem_of_filter).
    assert (b = st) by (by apply Hsame).
    subst b. by rewrite Hins in Hbin.
  - exact Hb.
  - intros point. unfold getResizeCorner. by rewrite Hb.
Qed.

Lemma stroke_without_points_unreachable_witness :
  findStrokeAtPoint (viewerOf [strokeA; strokeE]) {| Point.x := 0; Point.y := 0 |} true
  ≠ Some "stroke-5-e"
  ∧ "stroke-5-e" ∉ findStrokesInRect (viewerOf [strokeA; strokeE])
                     {| Point.x := 0; Point.y := 0 |} {| Point.x := 50; Point.y := 50 |}.
Proof.
  assert (Hu : uniqueIds (strokes (canvas (viewerOf [strokeA; strokeE])))).
  { unfold uniqueIds. simpl. apply NoDup_cons. split.
    - intros H. apply list_elem_of_singleton in H. discriminate H.
    - apply NoDup_singleton. }
  assert (Hin : strokeE ∈ strokes (canvas (viewerOf [strokeA; strokeE])))
    by (right; left).
  destruct (stroke_without_points_unreachable (viewerOf [strokeA; strokeE]) strokeE
              eq_refl Hu Hin eq_refl) as (H1 & H2 & _).
  split; [apply H1 | apply H2].
Defined.

(** ** Resize handles *)

(** X16.  Only boxes have resize handles: when [getResizeCorner] names a
    corner, the stroke is a shape with its two corner points or a text
    with its anchor; never a pen or highlighter stroke, and never a
    missing stroke. *)
Theorem resize_handles_only_on_boxes (point : Point.t) (stroke : option Stroke.t)
    (c : Corner) :
  getResizeCorner point stroke = Some c →
  ∃ st, stroke = Some st
        ∧ isFreehand st = false
        ∧ is_Some (getStrokeBounds (Some st))
        ∧ ((Js.startsWith (Stroke.tool st) "shape-" = true
            ∧ 2 ≤ length (Stroke.points st))
           ∨ (Js.startsWith (Stroke.tool st) "text:" = true
              ∧ 1 ≤ length (Stroke.points st))).
Proof.
  unfold getResizeCorner. intros H.
  destruct stroke as [st|]; [|done].
  destruct (getStrokeBounds (Some st)) as [b|] eqn:Hb; [|done].
  exists st. split_and!; [done | | by eexists |].
  - destruct (isFreehand st) eqn:Hf; [|done].
    by rewrite (freehand_no_bounds st Hf) in Hb.
  - unfold getStrokeBounds in Hb.
    destruct (Stroke.points st) as [|p0 [|p1 rest]]; [done | |].
    + destruct (Js.startsWith (Stroke.tool st) "shape-");
        destruct (Js.startsWith (Stroke.tool st) "text:") eqn:Ht; try done;
        right; split; simpl; [done | lia | done | lia].
    + destruct (Js.startsWith (Stroke.tool st) "shape-") eqn:Hs.
      * left. split; [done | simpl; lia].
      * destruct (Js.startsWith (Stroke.tool st) "text:") eqn:Ht; [|done].
        right. split; [done | simpl; lia].
Qed.

(** The handle at the top right of the rectangle (0, 0)-(100, 50) is hit
    at (102, -2). *)
Lemma resize_handles_only_on_boxes_witness :
  getResizeCorner {| Point.x := 102; Point.y := -2 |} (Some strokeR) = Some tr
  ∧ isFreehand strokeR = false.
Proof.
  assert (H : getResizeCorner {| Point.x := 102; Point.y := -2 |} (Some strokeR)
              = Some tr) by reflexivity.
  destruct (resize_handles_only_on_boxes _ _ _ H) as (st & [= <-] & Hf & _).
  split; [exact H | exact Hf].
Defined.

(** ** Zoom *)

(** X17.  From a zoom between 25 and 400, as the initial 100 is, no sequence of
    zoom buttons, zoom keys, resets and ctrl-wheel turns leaves that
    range; in particular the scale [zoom / 100] the viewer divides by is
    never zero. *)
Theorem zoom_stays_in_range (actions : list Zoom.Action) (zoom : Z) :
  (25 ≤ zoom ≤ 400)%Z →
  let zoom' := foldl (λ z a, Zoom.act a z) zoom actions in
  (25 ≤ zoom' ≤ 400)%Z ∧ zoom' ≠ 0%Z.
Proof.
  revert zoom. induction actions as [|a actions IH]; intros zoom Hz; simpl.
  - split; [done | lia].
  - apply IH. destruct a as [| | |d]; simpl;
      unfold Zoom.zoomIn, Zoom.zoomOut, Zoom.resetZoom, Zoom.wheel;
      try destruct d; lia.
Qed.

Lemma zoom_stays_in_range_witness :
  let zoom' := foldl (λ z a, Zoom.act a z) Zoom.initial
    [Zoom.ZoomOut; Zoom.ZoomOut; Zoom.ZoomOut; Zoom.ZoomOut; Zoom.Wheel true] in
  zoom' = 25%Z ∧ (25 ≤ zoom' ≤ 400)%Z ∧ zoom' ≠ 0%Z.
Proof.
  assert (H : (25 ≤ Zoom.initial ≤ 400)%Z) by (unfold Zoom.initial; lia).
  split; [reflexivity|].
  exact (zoom_stays_in_range
    [Zoom.ZoomOut; Zoom.ZoomOut; Zoom.ZoomOut; Zoom.ZoomOut; Zoom.Wheel true]
    Zoom.initial H).
Defined.

(** * The page list *)

Module PagesFacts.
Import Pages.

Lemma maxId_upper (ids : list Z) (m : Z) :
  maxId ids = Some m → (∀ i, i ∈ ids → (i ≤ m)%Z) ∧ m ∈ ids.
Proof.
  destruct ids as [|i rest]; [done|]. simpl. intros [= <-].
  induction rest as [|j rest [IH1 IH2]]; simpl.
  - split; [|left]. intros k Hk. apply list_elem_of_singleton in Hk. lia.
  - split.
    + intros k Hk. apply elem_of_cons in Hk as [->|Hk].
      * assert (Hi : i ∈ i :: rest) by left. apply IH1 in Hi. lia.
      * apply elem_of_cons in Hk as [->|Hk]; [lia|].
        assert (Hk' : k ∈ i :: rest) by (by right). apply IH1 in Hk'. lia.
    + destruct (Z.max_spec j (foldr Z.max i rest)) as [[_ ->]|[_ ->]].
      * apply elem_of_cons in IH2 as [E|IH2]; [rewrite E; left|].
        right. by right.
      * right. left.
Qed.

Lemma findIndexFrom_found (from current : Z) (l : list Page) (k : nat) (p : Page) :
  NoDup (map id l) → l !! k = Some p → id p = current →
  findIndexFrom from current l = (from + Z.of_nat k)%Z.
Proof.
  revert from k. induction l as [|q l IH]; intros from k Hnd Hk Hid; [done|].
  simpl in Hnd. apply NoDup_cons in Hnd as [Hq Hnd].
  destruct k as [|k]; simpl in Hk |- *.
  - injection Hk as ->. rewrite bool_decide_eq_true_2 by done. lia.
  - rewrite bool_decide_eq_false_2.
    + rewrite (IH (from + 1)%Z k) by done. lia.
    + intros E. apply Hq. rewrite E, <- Hid, map_is_fmap.
      apply list_elem_of_fmap. exists p. split; [done|].
      by apply list_elem_of_lookup_2 in Hk.
Qed.

Lemma findIndexFrom_missing (from current : Z) (l : list Page) :
  current ∉ map id l → findIndexFrom from current l = (-1)%Z.
Proof.
  revert from. induction l as [|q l IH]; intros from Hc; [done|]. simpl.
  rewrite bool_decide_eq_false_2.
  - apply IH. intros H. apply Hc. by right.
  - intros E. apply Hc. rewrite <- E. left.
Qed.

Lemma current_lookup (h : Home) :
  NoDup (map id (pages h)) → currentPage h ∈ map id (pages h) →
  ∃ k p, pages h !! k = Some p ∧ id p = currentPage h
         ∧ findIndex h = Z.of_nat k.
Proof.
  intros Hnd Hc. rewrite map_is_fmap in Hc.
  apply list_elem_of_fmap in Hc as (p & Hid & Hp).
  apply list_elem_of_lookup in Hp as (k & Hk).
  exists k, p. split_and!; [done | done |].
  unfold findIndex. by rewrite (findIndexFrom_found 0 _ _ k p).
Qed.

Lemma member_id (l : list Page) (p : Page) : p ∈ l → id p ∈ map id l.
Proof. intros H. rewrite map_is_fmap. apply list_elem_of_fmap. eauto. Qed.

Lemma setCurrent_invariant (h : Home) (p : Page) :
  invariant h → p ∈ pages h → invariant (setCurrentPage (id p) h).
Proof.
  intros (Hne & Hnd & Hpos & _) Hp. unfold invariant. simpl.
  split_and!; try done. by apply member_id.
Qed.

Lemma add_invariant (h : Home) :
  invariant h → safe h → invariant (handleAddPage h).
Proof.
  intros (Hne & Hnd & Hpos & Hc) Hsafe. unfold handleAddPage.
  destruct (maxId (map id (pages h))) as [m|] eqn:Em; [|done].
  destruct (maxId_upper _ _ Em) as [Hmax Hm].
  assert (Hm' : (0 < m < 2 ^ 53)%Z).
  { rewrite map_is_fmap in Hm. apply list_elem_of_fmap in Hm as (p & -> & Hp).
    unfold safe in Hsafe. rewrite Forall_forall in Hpos, Hsafe.
    specialize (Hpos p Hp). specialize (Hsafe p Hp).
    unfold Js.isSafeInteger in Hsafe. lia. }
  assert (Hnew : Js.addNum m 1 = (m + 1)%Z).
  { unfold Js.addNum, Js.roundNum. rewrite bool_decide_eq_true_2; [done | lia]. }
  rewrite Hnew.
  unfold invariant. simpl. split_and!.
  - by destruct (pages h).
  - rewrite map_app. simpl. apply NoDup_app. split_and!; [done | | apply NoDup_singleton].
    intros i Hi Hi'. apply list_elem_of_singleton in Hi' as ->.
    specialize (Hmax _ Hi). lia.
  - apply Forall_app. split; [done|]. apply Forall_singleton. simpl.
    split; [lia|]. unfold Js.isNum, Js.roundNum.
    rewrite bool_decide_eq_true_2; [done | lia].
  - rewrite map_app. apply elem_of_app. right. left.
Qed.

Lemma delete_invariant (i : Z) (h : Home) :
  invariant h → invariant (handleDeletePage i h).
Proof.
  intros (Hne & Hnd & Hpos & Hc). unfold handleDeletePage.
  case_bool_decide as Hlen; [done|].
  set (remaining := filter (λ p, id p ≠ i) (pages h)).
  assert (Hsub : remaining `sublist_of` pages h) by apply sublist_filter.
  assert (Hrem : remaining ≠ []).
  { destruct (pages h) as [|p [|q l]] eqn:E; simpl in Hlen; [lia | lia |].
    simpl in Hnd. apply NoDup_cons in Hnd as [Hpq _].
    subst remaining. destruct (decide (id p = i)) as [Hp|Hp].
    - rewrite filter_cons_False by tauto.
      rewrite filter_cons_True; [done|].
      intros Hq. apply Hpq. rewrite Hp, <- Hq. left.
    - by rewrite filter_cons_True. }
  unfold invariant. cbn [pages currentPage]. split_and!.
  - done.
  - rewrite !map_is_fmap in *. eapply sublist_NoDup; [exact Hnd|].
    by apply fmap_sublist.
  - rewrite Forall_forall in Hpos |- *. intros p Hp. apply Hpos.
    by eapply elem_of_sublist.
  - case_bool_decide as Hcur.
    + unfold firstIdOr1. destruct remaining as [|p l] eqn:E; [done|]. simpl.
      assert (Hp : p ∈ pages h).
      { eapply elem_of_sublist; [|exact Hsub]. left. }
      rewrite Forall_forall in Hpos. specialize (Hpos p Hp). simpl in Hpos.
      rewrite bool_decide_eq_false_2 by lia. left.
    + rewrite map_is_fmap in Hc |- *.
      apply list_elem_of_fmap in Hc as (p & Hid & Hp).
      apply list_elem_of_fmap. exists p. split; [done|].
      apply list_elem_of_filter. split; [congruence | done].
Qed.

Lemma prev_invariant (h : Home) : invariant h → invariant (onPrevPage h).
Proof.
  intros Hinv. unfold onPrevPage. case_bool_decide; [|done].
  destruct (pages h !! _) as [p|] eqn:E; [|done].
  apply setCurrent_invariant; [done|]. by apply list_elem_of_lookup_2 in E.
Qed.

Lemma next_invariant (h : Home) : invariant h → invariant (onNextPage h).
Proof.
  intros Hinv. unfold onNextPage. case_bool_decide; [|done].
  destruct (pages h !! _) as [p|] eqn:E; [|done].
  apply setCurrent_invariant; [done|]. by apply list_elem_of_lookup_2 in E.
Qed.

Lemma pdf_invariant (pageNumbers : list Z) (h : Home) :
  NoDup pageNumbers → Forall (λ n, 0 < n ∧ Js.isNum n)%Z pageNumbers →
  1%Z ∈ pageNumbers →
  invariant h → invariant (handlePdfLoaded pageNumbers h).
Proof.
  intros Hnd Hpos H1 Hinv. unfold handlePdfLoaded.
  case_bool_decide as Hlen; [|done].
  assert (Hids : map id (map (λ n, {| id := n; name := "Page " +:+ pretty n;
                                       hasAnnotations := false |}) pageNumbers)
                 = pageNumbers).
  { clear. induction pageNumbers as [|n l IH]; [done|]. simpl. by rewrite IH. }
  unfold invariant. cbn [pages currentPage]. rewrite Hids. split_and!; try done.
  - destruct pageNumbers; [simpl in Hlen; lia | done].
  - clear -Hpos. induction Hpos; constructor; done.
Qed.

Lemma step_invariant (h h' : Home) :
  invariant h → safe h → step h h' → invariant h'.
Proof.
  intros Hinv Hsafe Hstep. destruct Hstep.
  - by apply add_invariant.
  - by apply delete_invariant.
  - by apply prev_invariant.
  - by apply next_invariant.
  - by apply setCurrent_invariant.
  - by apply pdf_invariant.
Qed.

Lemma initial_invariant : invariant initial.
Proof.
  unfold invariant, initial. simpl. split_and!; [done | apply NoDup_singleton | | left].
  apply Forall_singleton. simpl. split; [lia | done].
Qed.

Lemma onPrevPage_at (l : list Page) (k : nat) (p q : Page) :
  NoDup (map id l) → l !! S k = Some p → l !! k = Some q →
  onPrevPage (mkHome l (id p)) = mkHome l (id q).
Proof.
  intros Hnd Hp Hq. unfold onPrevPage, findIndex. simpl.
  rewrite (findIndexFrom_found 0 _ _ (S k) p) by done.
  rewrite bool_decide_eq_true_2 by lia.
  replace (Z.to_nat (0 + Z.of_nat (S k) - 1)) with k by lia.
  by rewrite Hq.
Qed.

Lemma onNextPage_at (l : list Page) (k : nat) (p q : Page) :
  NoDup (map id l) → l !! k = Some p → l !! S k = Some q →
  onNextPage (mkHome l (id p)) = mkHome l (id q).
Proof.
  intros Hnd Hp Hq. unfold onNextPage, findIndex. simpl.
  rewrite (findIndexFrom_found 0 _ _ k p) by done.
  apply lookup_lt_Some in Hq as Hlt.
  rewrite bool_decide_eq_true_2 by lia.
  replace (Z.to_nat (0 + Z.of_nat k + 1)) with (S k) by lia.
  by rewrite Hq.
Qed.

End PagesFacts.

(** X18.  As long as page ids stay below 2^53, whatever the user does
    with the page list (add, delete, previous, next, pick a page in the
    sidebar, open a document) leaves at least one page, page ids that
    are positive and all different, and a current page that is one of
    the pages; so the page indicator of the viewer is between 1 and the
    number of pages.  The bound is needed: [handleAddPage] adds 1 to the
    highest id in binary64, and next to a page numbered 2^53 the new
    page gets the id 2^53 again. *)
Theorem page_list_invariant :
  (∀ h, Pages.safelyReachable h →
        Pages.pages h ≠ []
        ∧ NoDup (map Pages.id (Pages.pages h))
        ∧ Forall (λ p, 0 < Pages.id p)%Z (Pages.pages h)
        ∧ Pages.currentPage h ∈ map Pages.id (Pages.pages h)
        ∧ (1 ≤ Pages.currentPageIndex h ≤ Z.of_nat (Pages.totalPages h))%Z)
  ∧ Pages.reachable (Pages.handleAddPage Pages.farPage)
  ∧ map Pages.id (Pages.pages (Pages.handleAddPage Pages.farPage))
    = [1; 2 ^ 53; 2 ^ 53]%Z.
Proof.
  split_and!.
  - intros h Hr.
    assert (Hinv : Pages.invariant h).
    { induction Hr as [|h h' _ IH Hsafe Hstep];
        [apply PagesFacts.initial_invariant|].
      by apply (PagesFacts.step_invariant h). }
    destruct Hinv as (Hne & Hnd & Hpos & Hc). split_and!; try done.
    + eapply Forall_impl; [exact Hpos|]. by intros p [H _].
    + destruct (PagesFacts.current_lookup h Hnd Hc) as (k & p & Hk & _ & Hidx).
      unfold Pages.currentPageIndex. lia.
    + destruct (PagesFacts.current_lookup h Hnd Hc) as (k & p & Hk & _ & Hidx).
      apply lookup_lt_Some in Hk.
      unfold Pages.currentPageIndex, Pages.totalPages. lia.
  - eapply Pages.reachable_step; [|apply Pages.step_add].
    eapply Pages.reachable_step; [apply Pages.reachable_initial|].
    apply Pages.step_pdf.
    + apply NoDup_cons. split; [|apply NoDup_singleton].
      intros H. apply list_elem_of_singleton in H. discriminate H.
    + repeat constructor; by vm_compute.
    + left.
  - by vm_compute.
Qed.

Lemma page_list_invariant_witness :
  let h := Pages.handleDeletePage 2 (Pages.handleAddPage Pages.initial) in
  Pages.currentPage h ∈ map Pages.id (Pages.pages h)
  ∧ (1 ≤ Pages.currentPageIndex h ≤ Z.of_nat (Pages.totalPages h))%Z.
Proof.
  intros h.
  assert (Hs0 : Pages.safe Pages.initial).
  { apply Forall_singleton. by vm_compute. }
  assert (Hs1 : Pages.safe (Pages.handleAddPage Pages.initial)).
  { repeat constructor; by vm_compute. }
  assert (Hr : Pages.safelyReachable h).
  { eapply Pages.safely_step; [|exact Hs1|apply Pages.step_delete].
    eapply Pages.safely_step; [apply Pages.safely_initial|exact Hs0|].
    apply Pages.step_add. }
  destruct page_list_invariant as (H & _).
  destruct (H h Hr) as (_ & _ & _ & Hc & Hidx).
  split; [exact Hc | exact Hidx].
Defined.

(** X19.  With page ids all different and the current page in the list, going
    to the previous page and then to the next one leads back to the page
    one started from, unless one was on the first page; and likewise
    next-then-previous, unless one was on the last page. *)
Theorem prev_next_round_trip (h : Pages.Home) :
  NoDup (map Pages.id (Pages.pages h)) →
  Pages.currentPage h ∈ map Pages.id (Pages.pages h) →
  ((0 < Pages.findIndex h)%Z → Pages.onNextPage (Pages.onPrevPage h) = h)
  ∧ ((Pages.findIndex h < Z.of_nat (length (Pages.pages h)) - 1)%Z →
     Pages.onPrevPage (Pages.onNextPage h) = h)
  ∧ (Pages.findIndex h = 0%Z → Pages.onPrevPage h = h)
  ∧ (Pages.findIndex h = (Z.of_nat (length (Pages.pages h)) - 1)%Z →
     Pages.onNextPage h = h).
Proof.
  intros Hnd Hc.
  destruct (PagesFacts.current_lookup h Hnd Hc) as (k & p & Hk & Hid & Hidx).
  destruct h as [l current]. simpl in Hnd, Hc, Hk, Hid. subst current.
  rewrite Hidx. cbn [Pages.pages]. split_and!.
  - intros Hpos. destruct k as [|k]; [lia|].
    destruct (l !! k) as [q|] eqn:Eq;
      [|apply lookup_ge_None in Eq; apply lookup_lt_Some in Hk; lia].
    rewrite (PagesFacts.onPrevPage_at l k p q) by done.
    by apply (PagesFacts.onNextPage_at l k q p).
  - intros Hlast.
    destruct (l !! S k) as [q|] eqn:Eq; [|apply lookup_ge_None in Eq; lia].
    rewrite (PagesFacts.onNextPage_at l k p q) by done.
    by apply (PagesFacts.onPrevPage_at l k q p).
  - intros H0. unfold Pages.onPrevPage. rewrite Hidx.
    by rewrite bool_decide_eq_false_2 by lia.
  - intros Hl. unfold Pages.onNextPage. rewrite Hidx. cbn [Pages.pages].
    by rewrite bool_decide_eq_false_2 by lia.
Qed.

Lemma prev_next_round_trip_witness :
  let h := Pages.handleAddPage (Pages.handleAddPage Pages.initial) in
  Pages.onNextPage (Pages.onPrevPage h) = h.
Proof.
  intros h.
  assert (Hnd : NoDup (map Pages.id (Pages.pages h))).
  { change (NoDup [1; 2; 3]%Z).
    repeat (apply NoDup_cons; split; [rewrite ?elem_of_cons, elem_of_nil; lia|]).
    apply NoDup_nil_2. }
  assert (Hc : Pages.currentPage h ∈ map Pages.id (Pages.pages h)).
  { change (3%Z ∈ [1; 2; 3]%Z). right. right. left. }
  destruct (prev_next_round_trip h Hnd Hc) as (H & _).
  apply H. reflexivity.
Defined.

(** X20.  Page ids are not kept for good: when the page with the highest id is
    deleted and the page numbered just below it exists, the next page
    added gets the id of the deleted page again. *)
Theorem deleted_page_id_is_reused (h : Pages.Home) (m : Z) :
  Pages.invariant h →
  Pages.maxId (map Pages.id (Pages.pages h)) = Some m →
  (m - 1)%Z ∈ map Pages.id (Pages.pages h) →
  let h' := Pages.handleAddPage (Pages.handleDeletePage m h) in
  (m ∉ map Pages.id (Pages.pages (Pages.handleDeletePage m h)))
  ∧ Pages.currentPage h' = m
  ∧ m ∈ map Pages.id (Pages.pages h').
Proof.
  intros (Hne & Hnd & Hpos & Hc) Hmax Hprev.
  destruct (PagesFacts.maxId_upper _ _ Hmax) as [Hle Hm].
  assert (Hlen : ¬ length (Pages.pages h) ≤ 1).
  { intros Hlen. destruct (Pages.pages h) as [|p [|q l]]; simpl in *; [done| |lia].
    apply list_elem_of_singleton in Hm. apply list_elem_of_singleton in Hprev. lia. }
  unfold Pages.handleDeletePage. rewrite bool_decide_eq_false_2 by done.
  set (remaining := filter (λ p, Pages.id p ≠ m) (Pages.pages h)).
  cbn zeta.
  assert (Hnot : m ∉ map Pages.id remaining).
  { rewrite map_is_fmap. intros (p & Hid & [Hp _]%list_elem_of_filter)%list_elem_of_fmap.
    done. }
  assert (Hmax' : Pages.maxId (map Pages.id remaining) = Some (m - 1)%Z).
  { assert (Hin : (m - 1)%Z ∈ map Pages.id remaining).
    { rewrite map_is_fmap in Hprev |- *.
      apply list_elem_of_fmap in Hprev as (p & Hid & Hp).
      apply list_elem_of_fmap. exists p. split; [done|].
      apply list_elem_of_filter. split; [lia | done]. }
    destruct (Pages.maxId (map Pages.id remaining)) as [m'|] eqn:E.
    - destruct (PagesFacts.maxId_upper _ _ E) as [Hle' Hm'].
      specialize (Hle' _ Hin).
      assert (m' ≠ m) by (intros ->; done).
      assert (m' ≤ m)%Z.
      { apply Hle. rewrite map_is_fmap in Hm' |- *.
        apply list_elem_of_fmap in Hm' as (p & Hid & [_ Hp]%list_elem_of_filter).
        apply list_elem_of_fmap. eauto. }
      f_equal. lia.
    - destruct (map Pages.id remaining); [by apply elem_of_nil in Hin | done]. }
  assert (Hnew : Js.addNum (m - 1) 1 = m).
  { unfold Js.addNum. replace (m - 1 + 1)%Z with m by lia.
    rewrite map_is_fmap in Hm. apply list_elem_of_fmap in Hm as (p & -> & Hp).
    rewrite Forall_forall in Hpos. by destruct (Hpos p Hp). }
  split_and!.
  - exact Hnot.
  - unfold Pages.handleAddPage. cbn [Pages.pages]. rewrite Hmax'. simpl.
    exact Hnew.
  - unfold Pages.handleAddPage. cbn [Pages.pages]. rewrite Hmax'. simpl.
    rewrite map_app. apply elem_of_app. right. simpl.
    rewrite Hnew. left.
Qed.

Lemma deleted_page_id_is_reused_witness :
  let h := Pages.handleAddPage (Pages.handleAddPage Pages.initial) in
  Pages.currentPage (Pages.handleAddPage (Pages.handleDeletePage 3 h)) = 3%Z.
Proof.
  intros h.
  assert (Hinv : Pages.invariant h).
  { apply PagesFacts.add_invariant; [apply PagesFacts.add_invariant|].
    - apply PagesFacts.initial_invariant.
    - apply Forall_singleton. by vm_compute.
    - repeat constructor; by vm_compute. }
  assert (Hprev : (3 - 1)%Z ∈ map Pages.id (Pages.pages h)).
  { change (2%Z ∈ [1; 2; 3]%Z). right. left. }
  by destruct (deleted_page_id_is_reused h 3 Hinv eq_refl Hprev) as (_ & H & _).
Defined.

(** * The PDF store and the prefetch queue *)

(** X21.  A rendered page stays available: after [setRenderedPage],
    [getRenderedPage] returns the image for that page and what it
    returned before for every other page, no cached page is lost, and
    whatever page the viewer is on, the prefetch effect does not queue
    the page again. *)
Theorem rendered_page_is_cached (pageNumber : Z) (imageData : string) (s : PdfStore.t) :
  let s' := PdfStore.setRenderedPage pageNumber imageData s in
  PdfStore.getRenderedPage pageNumber s' = Some imageData
  ∧ (∀ q, q ≠ pageNumber →
          PdfStore.getRenderedPage q s' = PdfStore.getRenderedPage q s)
  ∧ (∀ q, is_Some (PdfStore.getRenderedPage q s) →
          is_Some (PdfStore.getRenderedPage q s'))
  ∧ PdfStore.pdfPath s' = PdfStore.pdfPath s
  ∧ PdfStore.pagesMeta s' = PdfStore.pagesMeta s
  ∧ (∀ currentPage r,
       pageNumber ∉ Prefetch.pdfQueueRef
                      (Prefetch.rebuild (PdfStore.depsOf s' currentPage) r)).
Proof.
  cbn zeta. unfold PdfStore.getRenderedPage. split_and!; try done.
  - simpl. apply lookup_insert_eq.
  - intros q Hq. simpl. by apply lookup_insert_ne.
  - intros q Hq. simpl. destruct (decide (q = pageNumber)) as [->|Hne].
    + rewrite lookup_insert_eq. by eexists.
    + by rewrite lookup_insert_ne.
  - intros currentPage r. rewrite PrefetchFacts.rebuild_queue.
    intros [H _]%list_elem_of_filter. simpl in H.
    by rewrite lookup_insert_eq in H.
Qed.

(** X22.  [loadPage] writes at most the page it was asked for, and only a page
    that [renderPdfPage] really returned to a run that is still current:
    a run cancelled before or during the rendering leaves the store as it
    is, and so does a page the run saw as rendered already, a [null]
    answer or a failure; only the failure is logged.  No cached page is
    ever lost. *)
Theorem loadPage_discards_stale (cancelledBefore : bool) (d : Prefetch.Deps)
    (pageNum : Z) (outcome : PdfStore.RenderOutcome) (cancelledAfter : bool)
    (s : PdfStore.t) :
  let s' := (PdfStore.loadPage cancelledBefore d pageNum outcome cancelledAfter s).1 in
  let logged := (PdfStore.loadPage cancelledBefore d pageNum outcome cancelledAfter s).2 in
  (∀ q, q ≠ pageNum → PdfStore.getRenderedPage q s' = PdfStore.getRenderedPage q s)
  ∧ (∀ q, is_Some (PdfStore.getRenderedPage q s) →
          is_Some (PdfStore.getRenderedPage q s'))
  ∧ (cancelledBefore = true ∨ cancelledAfter = true
     ∨ Prefetch.has d pageNum = true → s' = s)
  ∧ (match outcome with
     | PdfStore.Rendered image_data =>
         cancelledBefore = false → cancelledAfter = false →
         Prefetch.has d pageNum = false →
         PdfStore.getRenderedPage pageNum s' = Some image_data
     | _ => s' = s
     end)
  ∧ (logged = true
     ↔ cancelledBefore = false ∧ Prefetch.has d pageNum = false
       ∧ outcome = PdfStore.Threw).
Proof.
  cbn zeta. unfold PdfStore.loadPage.
  destruct cancelledBefore, (Prefetch.has d pageNum), outcome, cancelledAfter;
    simpl; split_and!; try done;
    try (intros q Hq; unfold PdfStore.getRenderedPage; simpl;
         by rewrite ?lookup_insert_ne);
    try (intros q Hq; unfold PdfStore.getRenderedPage; simpl;
         destruct (decide (q = pageNum)) as [->|Hne];
         [rewrite lookup_insert_eq; by eexists | by rewrite lookup_insert_ne]);
    try (intros [?|[?|?]]; done);
    try (intros _ _ _; unfold PdfStore.getRenderedPage; simpl;
         apply lookup_insert_eq);
    try (split; [done | by intros (?&?&?)]);
    try (split; [done | intros (?&?&?); done]).
Qed.

(** X23.  The rebuilt queue never holds more than three pages, never a
    page that is rendered already, and besides the current page N only
    N - 1, when N > 1, and N + 1, when N is below the page count, as
    binary64 computes them.  For N below 2^53 in magnitude these are the
    neighbouring integers and no page is queued twice.  Beyond that N - 1
    can round back to N: at N = 2^54 the current page, when it is not
    rendered yet, is queued twice. *)
Theorem prefetch_queue_bounds (d : Prefetch.Deps) (r : Prefetch.Refs) :
  let queue := Prefetch.pdfQueueRef (Prefetch.rebuild d r) in
  let n := Prefetch.currentPage d in
  let total := Z.of_nat (length (Prefetch.pagesMeta d)) in
  length queue ≤ 3
  ∧ (∀ p, p ∈ queue →
          Prefetch.renderedPages d !! p = None
          ∧ (p = n ∨ (p = Js.subNum n 1 ∧ 1 < n) ∨ (p = Js.addNum n 1 ∧ n < total))%Z)
  ∧ (Js.isSafeInteger n →
     NoDup queue
     ∧ ∀ p, p ∈ queue →
            (p = n ∨ (p = n - 1 ∧ 1 ≤ p) ∨ (p = n + 1 ∧ p ≤ total))%Z)
  ∧ (n = (2 ^ 54)%Z → Prefetch.renderedPages d !! n = None →
     ∃ rest, queue = n :: n :: rest).
Proof.
  cbn zeta. rewrite PrefetchFacts.rebuild_queue.
  set (n := Prefetch.currentPage d).
  set (total := Z.of_nat (length (Prefetch.pagesMeta d))).
  assert (Hmem : ∀ p, p ∈ Prefetch.considered total n →
            (p = n ∨ (p = Js.subNum n 1 ∧ 1 < n) ∨ (p = Js.addNum n 1 ∧ n < total))%Z).
  { intros p Hin. unfold Prefetch.considered in Hin.
    apply elem_of_app in Hin as [Hin|Hin];
      [apply list_elem_of_singleton in Hin; by left|].
    apply elem_of_app in Hin as [Hin|Hin].
    - case_bool_decide; [|by apply elem_of_nil in Hin].
      apply list_elem_of_singleton in Hin. right. by left.
    - case_bool_decide; [|by apply elem_of_nil in Hin].
      apply list_elem_of_singleton in Hin. right. by right. }
  split_and!.
  - etrans; [apply length_filter|]. unfold Prefetch.considered.
    destruct (bool_decide (1 < n)%Z), (bool_decide (n < total)%Z); simpl; lia.
  - intros p [Hp Hin]%list_elem_of_filter. split; [done|]. by apply Hmem.
  - intros Hsafe.
    destruct (PrefetchFacts.safe_neighbours n Hsafe) as [Hsub Hadd].
    split.
    + apply NoDup_filter. unfold Prefetch.considered. rewrite Hsub, Hadd.
      destruct (bool_decide (1 < n)%Z), (bool_decide (n < total)%Z); simpl;
        repeat (apply NoDup_cons; split;
                [rewrite ?elem_of_cons, elem_of_nil; lia|]);
        apply NoDup_nil_2.
    + intros p [_ Hin]%list_elem_of_filter.
      destruct (Hmem p Hin) as [->|[[-> H1]|[-> H2]]];
        [by left | right; left; lia | right; right; lia].
  - intros Hn Hnone. unfold Prefetch.considered.
    rewrite (bool_decide_eq_true_2 (1 < n)%Z) by lia.
    assert (Hsub : Js.subNum n 1 = n) by (rewrite Hn; by vm_compute).
    rewrite Hsub. simpl.
    rewrite filter_cons_True by done. rewrite filter_cons_True by done.
    by eexists.
Qed.

(** X24.  A run of the effect that stays current and starts with no load under
    way loads its whole queue, page after page in queue order, and ends
    with the queue empty and the flag released; a run that finds a load
    under way starts nothing and leaves the queue as it is. *)
Theorem uncancelled_run_drains_queue (fuel : nat) (r : Prefetch.Refs) :
  length (Prefetch.pdfQueueRef r) ≤ fuel →
  drain fuel r
  = if Prefetch.pdfLoadingRef r then ([], r)
    else (Prefetch.pdfQueueRef r, Prefetch.mkRefs false []).
Proof.
  destruct r as [loading queue]. simpl.
  revert fuel. induction queue as [|p rest IH]; intros fuel Hfuel.
  - destruct fuel, loading; done.
  - destruct fuel as [|fuel]; [simpl in Hfuel; lia|].
    destruct loading; [done|].
    simpl. unfold Prefetch.processQueue, Prefetch.resume. simpl.
    destruct rest as [|q rest']; [done|].
    simpl. simpl in Hfuel.
    specialize (IH fuel ltac:(simpl; lia)).
    simpl in IH. by rewrite IH.
Qed.

Lemma uncancelled_run_drains_queue_witness :
  drain 3 (Prefetch.rebuild threePages (Prefetch.mkRefs false [7%Z]))
  = ([2%Z; 1%Z], Prefetch.mkRefs false []).
Proof.
  rewrite (uncancelled_run_drains_queue 3 _); [reflexivity|].
  vm_compute. lia.
Defined.

(** * The colour store *)

Lemma length_take_le {A} (n : nat) (l : list A) : length (take n l) ≤ n.
Proof. rewrite length_take. lia. Qed.

Lemma colour_act_invariant (a : ColorStore.Action) (s : ColorStore.t) :
  ColorStore.invariant s → ColorStore.invariant (ColorStore.act a s).
Proof.
  intros Hinv. pose proof Hinv as (Hc & Hcl & Hr & Hrl).
  destruct a as [c|c|c]; simpl.
  - unfold ColorStore.addCustomColor.
    destruct (decide (c ∈ ColorStore.customColors s)) as [E1|E1];
      [by rewrite (bool_decide_eq_true_2 _ E1)|].
    rewrite (bool_decide_eq_false_2 _ E1). cbn [negb andb].
    destruct (decide (length (ColorStore.customColors s) < 16)) as [E2|E2];
      [|by rewrite (bool_decide_eq_false_2 _ E2)].
    rewrite (bool_decide_eq_true_2 _ E2).
    unfold ColorStore.invariant. simpl. split_and!; [| |done|done].
    + apply NoDup_app. split_and!; [done | | apply NoDup_singleton].
      intros x Hx Hx'. apply list_elem_of_singleton in Hx' as ->. done.
    + rewrite length_app. simpl. lia.
  - unfold ColorStore.invariant. simpl. split_and!; [| |done|done].
    + by apply NoDup_filter.
    + etrans; [apply length_filter|done].
  - unfold ColorStore.invariant. simpl. split_and!; [done|done| |].
    + apply NoDup_cons. split.
      * intros (i & Hi & _)%elem_of_take.
        apply list_elem_of_lookup_2, list_elem_of_filter in Hi. tauto.
      * eapply sublist_NoDup; [|apply sublist_take]. by apply NoDup_filter.
    + pose proof (length_take_le 7 (filter (λ c0, c0 ≠ c) (ColorStore.recentColors s))).
      lia.
Qed.

(** X25.  The colour store keeps its palettes in shape: whatever colours are
    added, removed or used, in any order, no colour appears twice among
    the custom colours or among the recent colours, and there are never
    more than 16 custom colours nor more than 8 recent ones. *)
Theorem palettes_stay_in_shape (actions : list ColorStore.Action) (s : ColorStore.t) :
  ColorStore.invariant s →
  ColorStore.invariant (foldl (λ st a, ColorStore.act a st) s actions).
Proof.
  revert s. induction actions as [|a actions IH]; intros s Hs; [done|].
  simpl. by apply IH, colour_act_invariant.
Qed.

Lemma palettes_stay_in_shape_witness :
  ColorStore.invariant
    (foldl (λ st a, ColorStore.act a st) ColorStore.initial
       [ColorStore.AddCustom "#ff0000"; ColorStore.AddCustom "#ff0000";
        ColorStore.AddRecent "#ff0000"; ColorStore.AddRecent "#00ff00";
        ColorStore.AddRecent "#ff0000"]).
Proof.
  apply palettes_stay_in_shape.
  unfold ColorStore.invariant. simpl. split_and!; try apply NoDup_nil_2; lia.
Defined.

(** X26.  Using a colour puts it first among the recent colours.  When it was
    already recent, the recent colours are only reordered; when it is
    new, it is put in front of the others and, if there were eight
    already, the last of them is dropped. *)
Theorem recent_colour_moves_to_front (color : string) (s : ColorStore.t) :
  NoDup (ColorStore.recentColors s) → length (ColorStore.recentColors s) ≤ 8 →
  let s' := ColorStore.addRecentColor color s in
  ColorStore.recentColors s' !! 0 = Some color
  ∧ ColorStore.customColors s' = ColorStore.customColors s
  ∧ (if bool_decide (color ∈ ColorStore.recentColors s)
     then ColorStore.recentColors s' ≡ₚ ColorStore.recentColors s
     else ColorStore.recentColors s'
          = color :: take 7 (ColorStore.recentColors s)).
Proof.
  intros Hnd Hlen. cbn zeta. unfold ColorStore.addRecentColor.
  cbn [ColorStore.recentColors ColorStore.customColors].
  split_and!; [done | done |].
  case_bool_decide as Hin.
  - assert (Hperm : color :: filter (λ c, c ≠ color) (ColorStore.recentColors s)
                    ≡ₚ ColorStore.recentColors s).
    { clear Hlen. induction (ColorStore.recentColors s) as [|x l IH];
        [by apply elem_of_nil in Hin|].
      apply NoDup_cons in Hnd as [Hx Hnd].
      destruct (decide (x = color)) as [->|Hne].
      - rewrite filter_cons_False by tauto.
        f_equiv. rewrite filter_all; [done|]. intros y Hy ->. done.
      - rewrite filter_cons_True by done.
        apply elem_of_cons in Hin as [->|Hin]; [done|].
        rewrite Permutation_swap. f_equiv. by apply IH. }
    rewrite take_ge; [done|].
    rewrite Hperm. done.
  - rewrite filter_all by (intros y Hy ->; done). done.
Qed.

Lemma recent_colour_moves_to_front_witness :
  ColorStore.recentColors
    (ColorStore.addRecentColor "#8"
       (ColorStore.mk [] ["#0"; "#1"; "#2"; "#3"; "#4"; "#5"; "#6"; "#7"]))
  = ["#8"; "#0"; "#1"; "#2"; "#3"; "#4"; "#5"; "#6"].
Proof.
  set (s := ColorStore.mk [] ["#0"; "#1"; "#2"; "#3"; "#4"; "#5"; "#6"; "#7"]).
  assert (Hnd : NoDup (ColorStore.recentColors s)).
  { simpl. repeat (apply NoDup_cons; split;
      [rewrite ?elem_of_cons, elem_of_nil; intuition discriminate|]).
    apply NoDup_nil_2. }
  assert (Hlen : length (ColorStore.recentColors s) ≤ 8) by (simpl; lia).
  destruct (recent_colour_moves_to_front "#8" s Hnd Hlen) as (_ & _ & H).
  rewrite bool_decide_eq_false_2 in H; [exact H|].
  simpl. rewrite !elem_of_cons, elem_of_nil. intuition discriminate.
Defined.

(** X27.  A custom colour is added at the end unless it is there already or
    the palette holds 16 colours, in which cases the call changes
    nothing; removing a colour takes it out; and adding a new colour to a
    palette with room and removing it again gives back the palette. *)
Theorem custom_colour_add_remove (color : string) (s : ColorStore.t) :
  NoDup (ColorStore.customColors s) →
  (if bool_decide (color ∈ ColorStore.customColors s
                   ∨ 16 ≤ length (ColorStore.customColors s))
   then ColorStore.addCustomColor color s = s
   else ColorStore.customColors (ColorStore.addCustomColor color s)
        = ColorStore.customColors s ++ [color]
        ∧ ColorStore.removeCustomColor color (ColorStore.addCustomColor color s) = s)
  ∧ (color ∉ ColorStore.customColors (ColorStore.removeCustomColor color s))
  ∧ (∀ c, c ≠ color →
          (c ∈ ColorStore.customColors (ColorStore.removeCustomColor color s)
           ↔ c ∈ ColorStore.customColors s))
  ∧ ColorStore.recentColors (ColorStore.addCustomColor color s)
    = ColorStore.recentColors s.
Proof.
  intros Hnd. split_and!.
  - unfold ColorStore.addCustomColor. case_bool_decide as H.
    + destruct H as [H|H].
      * by rewrite (bool_decide_eq_true_2 _ H).
      * rewrite (bool_decide_eq_false_2 (length _ < 16)) by lia.
        by rewrite andb_false_r.
    + rewrite bool_decide_eq_false_2 by tauto.
      rewrite bool_decide_eq_true_2 by lia. simpl. split; [done|].
      unfold ColorStore.removeCustomColor. simpl.
      rewrite filter_app, filter_cons_False, filter_nil, app_nil_r by tauto.
      rewrite filter_all by (intros y Hy ->; tauto).
      by destruct s.
  - simpl. rewrite list_elem_of_filter. tauto.
  - intros c Hc. simpl. rewrite list_elem_of_filter. tauto.
  - unfold ColorStore.addCustomColor. by case_match.
Qed.

Lemma custom_colour_add_remove_witness :
  ColorStore.removeCustomColor "#ff0000"
    (ColorStore.addCustomColor "#ff0000" ColorStore.initial)
  = ColorStore.initial.
Proof.
  assert (Hnd : NoDup (ColorStore.customColors ColorStore.initial))
    by apply NoDup_nil_2.
  destruct (custom_colour_add_remove "#ff0000" ColorStore.initial Hnd) as (H & _).
  rewrite bool_decide_eq_false_2 in H.
  - by destruct H as [_ H].
  - simpl. intros [H'|H']; [by apply elem_of_nil in H' | lia].
Defined.
